(** * InFact stream tokenizer: token buffer and rewindable cursor

    A shallow embedding of [infact::StreamTokenizer]
    (src/infact/stream-tokenizer.h) and the properties of its public
    cursor API: [HasNext], [Next], [Rewind], [Putback], the [Peek] family
    and [tellg]. *)

From Stdlib Require Import ZArith List ListSet Ascii String Bool Lia.
Import ListNotations.
Local Open Scope Z_scope.

Set Implicit Arguments.

(** ** Outcomes of a call

    A member function either returns, or hands control to the fatal error
    collaborator, or indexes a vector out of range (which C++ leaves
    undefined). *)

Inductive Outcome (A : Type) : Type :=
| Returned (a : A)
| Fatal (message : string)
| Undefined.

Arguments Fatal {A} message.
Arguments Undefined {A}.

Definition bind {A B : Type} (m : Outcome A) (k : A -> Outcome B) : Outcome B :=
  match m with
  | Returned a => k a
  | Fatal message => Fatal message
  | Undefined => Undefined
  end.

Notation "x <- m ;; k" := (bind m (fun x => k))
  (at level 61, m at next level, right associativity).
Notation "m ;;; k" := (bind m (fun _ => k))
  (at level 61, right associativity).

(** Modelled from the spec: [Error] is declared in error.h, outside the
    header embedded here.  Section 6 of the specification gives its
    contract: it takes a descriptive message and does not return control to
    the tokenizer. *)
Definition Error (message : string) : Outcome unit := Fatal message.

(** ** [size_t]

    A 64-bit unsigned integer is a [Z] in [0, 2^64); sums and differences
    are reduced modulo [2^64]. *)

Definition size_t_modulus : Z := 2 ^ 64.

Definition size_t_ok (x : Z) : Prop := 0 <= x < size_t_modulus.

Definition size_t_add (x y : Z) : Z := (x + y) mod size_t_modulus.

Definition size_t_sub (x y : Z) : Z := (x - y) mod size_t_modulus.

Definition size_t_mul (x y : Z) : Z := (x * y) mod size_t_modulus.

(** ** [std::vector] *)

Definition size {A : Type} (v : list A) : Z := Z.of_nat (List.length v).

(** [v[i]]: defined only for [i < v.size()]. *)
Definition subscript {A : Type} (v : list A) (i : Z) : Outcome A :=
  if i <? 0 then Undefined
  else match nth_error v (Z.to_nat i) with
       | Some x => Returned x
       | None => Undefined
       end.

Definition push_back {A : Type} (v : list A) (x : A) : list A := v ++ [x].

(** ** Tokens *)

Inductive TokenType : Set :=
| EOF_TYPE
| RESERVED_CHAR
| RESERVED_WORD
| STRING
| NUMBER
| IDENTIFIER.

Definition TypeName (token_type : TokenType) : string :=
  match token_type with
  | EOF_TYPE => "EOF"
  | RESERVED_CHAR => "RESERVED_CHAR"
  | RESERVED_WORD => "RESERVED_WORD"
  | STRING => "STRING"
  | NUMBER => "NUMBER"
  | IDENTIFIER => "IDENTIFIER"
  end.

Module Token.
Record t : Set := {
  tok : string;
  type : TokenType;
  start : Z;
  line_number : Z;
  curr_pos : Z
}.
End Token.

Definition default_reserved_words : list string :=
  ["-"; "nullptr"; "NULL"; "false"; "true"; "bool"; "int"; "double";
   "string"; "bool[]"; "int[]"; "double[]"; "string[]"]%string.

Definition DEFAULT_RESERVED_CHARS : string := "(){},=;/".

(** ** The tokenizer object *)

Section Tokenizer.

(** The underlying [std::istream]. *)
Variable istream : Type.

(** The stream itself and the data members that hold the current state
    of the underlying byte stream.  They are grouped because they are what
    [ReadChar], [ConsumeChar] and [GetNext] work on; the history and the
    cursor are touched by the public cursor API alone. *)
Record ByteStream : Type := {
  is_ : istream;
  num_read_ : Z;
  line_number_ : Z;
  eof_reached_ : bool;
  oss_ : string
}.

Record StreamTokenizer : Type := {
  bytes_ : ByteStream;
  reserved_chars_ : string;
  num_reserved_chars_ : Z;
  reserved_words_ : list string;
  token_ : list Token.t;
  next_token_idx_ : Z
}.

Definition set_bytes (s : StreamTokenizer) (b : ByteStream) : StreamTokenizer :=
  {| bytes_ := b;
     reserved_chars_ := reserved_chars_ s;
     num_reserved_chars_ := num_reserved_chars_ s;
     reserved_words_ := reserved_words_ s;
     token_ := token_ s;
     next_token_idx_ := next_token_idx_ s |}.

Definition set_token (s : StreamTokenizer) (v : list Token.t) : StreamTokenizer :=
  {| bytes_ := bytes_ s;
     reserved_chars_ := reserved_chars_ s;
     num_reserved_chars_ := num_reserved_chars_ s;
     reserved_words_ := reserved_words_ s;
     token_ := v;
     next_token_idx_ := next_token_idx_ s |}.

Definition set_next_token_idx (s : StreamTokenizer) (i : Z) : StreamTokenizer :=
  {| bytes_ := bytes_ s;
     reserved_chars_ := reserved_chars_ s;
     num_reserved_chars_ := num_reserved_chars_ s;
     reserved_words_ := reserved_words_ s;
     token_ := token_ s;
     next_token_idx_ := i |}.

Definition set_reserved_words (reserved_words : list string) (s : StreamTokenizer)
  : StreamTokenizer :=
  {| bytes_ := bytes_ s;
     reserved_chars_ := reserved_chars_ s;
     num_reserved_chars_ := num_reserved_chars_ s;
     reserved_words_ := reserved_words;
     token_ := token_ s;
     next_token_idx_ := next_token_idx_ s |}.

(** [GetNext] is declared in the header and defined in
    stream-tokenizer.cc, outside the header embedded here; it is a
    parameter.  It reads the reserved characters and words, works on the
    byte-stream members, and either fills in a token and answers [true]
    ([Some]), answers [false] ([None]), or escalates a fatal lexical
    error. *)
Variable GetNext :
  string -> list string -> ByteStream -> Outcome (option Token.t * ByteStream).

(** The block
    [Token next; if (GetNext(&next)) { token_.push_back(next); }]
    shared by [Init] and [Next]. *)
Definition fetch (s : StreamTokenizer) : Outcome StreamTokenizer :=
  r <- GetNext (reserved_chars_ s) (reserved_words_ s) (bytes_ s) ;;
  let s' := set_bytes s (snd r) in
  match fst r with
  | Some next => Returned (set_token s' (push_back (token_ s') next))
  | None => Returned s'
  end.

Definition Init (s : StreamTokenizer) (reserved_chars : string)
  : Outcome StreamTokenizer :=
  let s :=
    {| bytes_ := bytes_ s;
       reserved_chars_ := reserved_chars;
       num_reserved_chars_ := Z.of_nat (String.length reserved_chars);
       reserved_words_ :=
         fold_left (fun words w => set_add string_dec w words)
                   default_reserved_words (reserved_words_ s);
       token_ := token_ s;
       next_token_idx_ := next_token_idx_ s |} in
  fetch s.

(** The constructor: member initialisers, then [Init]. *)
Definition construct (input : istream) (reserved_chars : string)
  : Outcome StreamTokenizer :=
  Init {| bytes_ := {| is_ := input; num_read_ := 0; line_number_ := 0;
                       eof_reached_ := false; oss_ := EmptyString |};
          reserved_chars_ := EmptyString;
          num_reserved_chars_ := 0;
          reserved_words_ := [];
          token_ := [];
          next_token_idx_ := 0 |}
       reserved_chars.

Definition str (s : StreamTokenizer) : string := oss_ (bytes_ s).

Definition HasNext (s : StreamTokenizer) : bool :=
  next_token_idx_ s <? size (token_ s).

Definition HasPrev (s : StreamTokenizer) : bool :=
  next_token_idx_ s >? 0.

Definition tellg (s : StreamTokenizer) : Outcome Z :=
  if HasPrev s then
    t <- subscript (token_ s) (size_t_sub (next_token_idx_ s) 1) ;;
    Returned (Token.curr_pos t)
  else Returned 0.

Definition line_number (s : StreamTokenizer) : Outcome Z :=
  if HasNext s then
    t <- subscript (token_ s) (next_token_idx_ s) ;;
    Returned (Token.line_number t)
  else Returned (line_number_ (bytes_ s)).

Definition PeekPrev (s : StreamTokenizer) : Outcome string :=
  if HasPrev s then
    t <- subscript (token_ s) (size_t_sub (next_token_idx_ s) 1) ;;
    Returned (Token.tok t)
  else Returned EmptyString.

Definition PeekPrevTokenStart (s : StreamTokenizer) : Outcome Z :=
  if HasPrev s then
    t <- subscript (token_ s) (size_t_sub (next_token_idx_ s) 1) ;;
    Returned (Token.start t)
  else Returned 0.

Definition PeekPrevTokenType (s : StreamTokenizer) : Outcome TokenType :=
  if HasPrev s then
    t <- subscript (token_ s) (size_t_sub (next_token_idx_ s) 1) ;;
    Returned (Token.type t)
  else Returned EOF_TYPE.

(** The guard of the look-ahead in [Next]:
    [!eof_reached_ && next_token_idx_ + 1 == token_.size()]. *)
Definition about_to_run_out (s : StreamTokenizer) : bool :=
  negb (eof_reached_ (bytes_ s))
  && (size_t_add (next_token_idx_ s) 1 =? size (token_ s)).

Definition Next (s : StreamTokenizer) : Outcome (string * StreamTokenizer) :=
  (if negb (HasNext s)
   then Error "invoking StreamTokenizer::Next when HasNext returns false"
   else Returned tt) ;;;
  let curr_token_idx := next_token_idx_ s in
  s <- (if about_to_run_out s then fetch s else Returned s) ;;
  let s :=
    if next_token_idx_ s <? size (token_ s)
    then set_next_token_idx s (size_t_add (next_token_idx_ s) 1)
    else s in
  t <- subscript (token_ s) curr_token_idx ;;
  Returned (Token.tok t, s).

(** [Rewind()]. *)
Definition Rewind0 (s : StreamTokenizer) : StreamTokenizer :=
  set_next_token_idx s 0.

(** [Rewind(size_t num_tokens)]. *)
Definition Rewind (num_tokens : Z) (s : StreamTokenizer) : StreamTokenizer :=
  let num_tokens :=
    if num_tokens >? next_token_idx_ s then next_token_idx_ s else num_tokens in
  set_next_token_idx s (size_t_sub (next_token_idx_ s) num_tokens).

Definition Putback (s : StreamTokenizer) : StreamTokenizer :=
  Rewind 1 s.

Definition PeekTokenStart (s : StreamTokenizer) : Outcome Z :=
  if HasNext s then
    t <- subscript (token_ s) (next_token_idx_ s) ;;
    Returned (Token.start t)
  else Returned (num_read_ (bytes_ s)).

Definition PeekTokenType (s : StreamTokenizer) : Outcome TokenType :=
  if HasNext s then
    t <- subscript (token_ s) (next_token_idx_ s) ;;
    Returned (Token.type t)
  else Returned EOF_TYPE.

Definition PeekTokenLineNumber (s : StreamTokenizer) : Outcome Z :=
  if HasNext s then
    t <- subscript (token_ s) (next_token_idx_ s) ;;
    Returned (Token.line_number t)
  else Returned (line_number_ (bytes_ s)).

Definition Peek (s : StreamTokenizer) : Outcome string :=
  if HasNext s then
    t <- subscript (token_ s) (next_token_idx_ s) ;;
    Returned (Token.tok t)
  else Returned EmptyString.

(** ** The public interface as a transition system

    One constructor per public member function.  A [const] member
    function answers a value and hands back the object it was given. *)

Inductive Call : Type :=
| call_set_reserved_words (reserved_words : list string)
| call_str
| call_tellg
| call_line_number
| call_HasNext
| call_HasPrev
| call_PeekPrev
| call_PeekPrevTokenStart
| call_PeekPrevTokenType
| call_Next
| call_Rewind0
| call_Rewind (num_tokens : Z)
| call_Putback
| call_PeekTokenStart
| call_PeekTokenType
| call_PeekTokenLineNumber
| call_Peek.

Inductive Value : Type :=
| void
| of_bool (b : bool)
| of_string (x : string)
| of_size_t (n : Z)
| of_TokenType (k : TokenType).

Definition const_member {A : Type} (wrap : A -> Value)
    (f : StreamTokenizer -> Outcome A) (s : StreamTokenizer)
  : Outcome (Value * StreamTokenizer) :=
  a <- f s ;; Returned (wrap a, s).

Definition invoke (c : Call) (s : StreamTokenizer)
  : Outcome (Value * StreamTokenizer) :=
  match c with
  | call_set_reserved_words w => Returned (void, set_reserved_words w s)
  | call_str => const_member of_string (fun s => Returned (str s)) s
  | call_tellg => const_member of_size_t tellg s
  | call_line_number => const_member of_size_t line_number s
  | call_HasNext => const_member of_bool (fun s => Returned (HasNext s)) s
  | call_HasPrev => const_member of_bool (fun s => Returned (HasPrev s)) s
  | call_PeekPrev => const_member of_string PeekPrev s
  | call_PeekPrevTokenStart => const_member of_size_t PeekPrevTokenStart s
  | call_PeekPrevTokenType => const_member of_TokenType PeekPrevTokenType s
  | call_Next => r <- Next s ;; Returned (of_string (fst r), snd r)
  | call_Rewind0 => Returned (void, Rewind0 s)
  | call_Rewind n => Returned (void, Rewind n s)
  | call_Putback => Returned (void, Putback s)
  | call_PeekTokenStart => const_member of_size_t PeekTokenStart s
  | call_PeekTokenType => const_member of_TokenType PeekTokenType s
  | call_PeekTokenLineNumber => const_member of_size_t PeekTokenLineNumber s
  | call_Peek => const_member of_string Peek s
  end.

(** The argument of [Rewind(size_t)] is a [size_t]. *)
Definition argument_ok (c : Call) : Prop :=
  match c with
  | call_Rewind n => size_t_ok n
  | _ => True
  end.

(** The states a client can bring a tokenizer into: construction, then
    any sequence of calls that return. *)
Inductive reachable : StreamTokenizer -> Prop :=
| reachable_construct (input : istream) (reserved_chars : string) s :
    construct input reserved_chars = Returned s -> reachable s
| reachable_invoke c s v s' :
    reachable s -> argument_ok c -> invoke c s = Returned (v, s') ->
    reachable s'.

(** ** Predicates on tokenizer objects *)

(** What the C++ types say about a tokenizer object: the cursor is a
    [size_t] and so is [token_.size()]. *)
Definition representable (s : StreamTokenizer) : Prop :=
  size_t_ok (next_token_idx_ s) /\ size_t_ok (size (token_ s)).

(** The history invariant: the cursor lies within [0, token_.size()]. *)
Definition cursor_in_history (s : StreamTokenizer) : Prop :=
  0 <= next_token_idx_ s <= size (token_ s).

(** What [fetch] makes of the answer of the classifier. *)
Definition fetched (s : StreamTokenizer) (r : option Token.t * ByteStream)
  : StreamTokenizer :=
  match fst r with
  | Some next => set_token (set_bytes s (snd r)) (token_ s ++ [next])
  | None => set_bytes s (snd r)
  end.

(** The outcome of the look-ahead of [Next]: the object [s1]. *)
Definition looked_ahead (s s1 : StreamTokenizer) : Prop :=
  (about_to_run_out s = false /\ s1 = s)
  \/ (about_to_run_out s = true
      /\ exists r,
           GetNext (reserved_chars_ s) (reserved_words_ s) (bytes_ s)
           = Returned r
           /\ s1 = fetched s r).

(** [s'] differs from [s] in the cursor at most. *)
Definition same_but_cursor (s s' : StreamTokenizer) : Prop :=
  token_ s' = token_ s
  /\ num_read_ (bytes_ s') = num_read_ (bytes_ s)
  /\ line_number_ (bytes_ s') = line_number_ (bytes_ s)
  /\ eof_reached_ (bytes_ s') = eof_reached_ (bytes_ s)
  /\ is_ (bytes_ s') = is_ (bytes_ s)
  /\ oss_ (bytes_ s') = oss_ (bytes_ s)
  /\ reserved_chars_ s' = reserved_chars_ s
  /\ num_reserved_chars_ s' = num_reserved_chars_ s
  /\ reserved_words_ s' = reserved_words_ s.

(** ** The end of the source, as the classifier reports it *)

(** No token is left: whatever the configuration, a classification
    answers [false]. *)
Definition exhausted (b : ByteStream) : Prop :=
  forall reserved_chars reserved_words,
  exists b', GetNext reserved_chars reserved_words b = Returned (None, b').

(** The source of [s] yields another token. *)
Definition may_yield (s : StreamTokenizer) : Prop :=
  exists next b',
    GetNext (reserved_chars_ s) (reserved_words_ s) (bytes_ s)
    = Returned (Some next, b').

(** A token is buffered at the cursor. *)
Definition buffered_at_cursor (s : StreamTokenizer) : Prop :=
  exists t, subscript (token_ s) (next_token_idx_ s) = Returned t.

(** ** Bookkeeping of consumed tokens

    What a client can note down while driving a tokenizer: [consumed]
    lists, most recent first, every token a call of [Next] has handed
    out; [outstanding] lists those among them that no later [Rewind] or
    [Putback] has put back. *)

Record Ledger : Type := {
  consumed : list Token.t;
  outstanding : list Token.t
}.

Definition note (c : Call) (s : StreamTokenizer) (l : Ledger) : Ledger :=
  match c with
  | call_Next =>
      match subscript (token_ s) (next_token_idx_ s) with
      | Returned t => {| consumed := t :: consumed l;
                         outstanding := t :: outstanding l |}
      | _ => l
      end
  | call_Rewind0 => {| consumed := consumed l; outstanding := [] |}
  | call_Rewind n =>
      {| consumed := consumed l;
         outstanding := skipn (Z.to_nat n) (outstanding l) |}
  | call_Putback =>
      {| consumed := consumed l; outstanding := skipn 1 (outstanding l) |}
  | _ => l
  end.

Inductive driven : StreamTokenizer -> Ledger -> Prop :=
| driven_construct (input : istream) (reserved_chars : string) s :
    construct input reserved_chars = Returned s ->
    driven s {| consumed := []; outstanding := [] |}
| driven_invoke c s l v s' :
    driven s l -> argument_ok c -> invoke c s = Returned (v, s') ->
    driven s' (note c s l).

(** A client at work: the calls [cs] made in turn on [s], the ledger
    kept alongside. *)
Fixpoint run (cs : list Call) (s : StreamTokenizer) (l : Ledger)
  : Outcome (StreamTokenizer * Ledger) :=
  match cs with
  | [] => Returned (s, l)
  | c :: cs' => r <- invoke c s ;; run cs' (snd r) (note c s l)
  end.

Definition session (input : istream) (reserved_chars : string)
    (cs : list Call) : Outcome (StreamTokenizer * Ledger) :=
  s <- construct input reserved_chars ;;
  run cs s {| consumed := []; outstanding := [] |}.

(** [positionAfter] of the token at the head of a list, 0 if there is
    none. *)
Definition position_after (l : list Token.t) : Z :=
  match l with
  | t :: _ => Token.curr_pos t
  | [] => 0
  end.

(** The tokens before the cursor, the nearest first. *)
Definition before_cursor (s : StreamTokenizer) : list Token.t :=
  rev (firstn (Z.to_nat (next_token_idx_ s)) (token_ s)).

(** ** Reserved characters *)

(** [ReservedChar]: the loop
    [for (size_t i = 0; i < num_reserved_chars_; ++i)] over the character
    array [reserved_chars_].  The number of iterations still to run,
    [num_reserved_chars_ - i], is the structural argument; reading the
    array past its characters is undefined. *)
Fixpoint ReservedChar_loop (remaining : nat) (i : Z) (s : StreamTokenizer)
    (c : ascii) : Outcome bool :=
  match remaining with
  | O => Returned false
  | S remaining' =>
      match String.get (Z.to_nat i) (reserved_chars_ s) with
      | Some x =>
          if Ascii.eqb c x then Returned true
          else ReservedChar_loop remaining' (size_t_add i 1) s c
      | None => Undefined
      end
  end.

Definition ReservedChar (s : StreamTokenizer) (c : ascii) : Outcome bool :=
  ReservedChar_loop (Z.to_nat (num_reserved_chars_ s)) 0 s c.

(** ** Clients *)

(** [k] calls of [Next] in a row, the texts collected in order. *)
Fixpoint Next_times (k : nat) (s : StreamTokenizer)
  : Outcome (list string * StreamTokenizer) :=
  match k with
  | O => Returned ([], s)
  | S k' =>
      r <- Next s ;;
      rest <- Next_times k' (snd r) ;;
      Returned (fst r :: fst rest, snd rest)
  end.

(** The calls that only read: the [const] member functions and [str]. *)
Definition reads_only (c : Call) : bool :=
  match c with
  | call_set_reserved_words _ | call_Next | call_Rewind0 | call_Rewind _
  | call_Putback => false
  | _ => true
  end.

End Tokenizer.

(** ** A sample classifier

    An instance of the parameter [GetNext], used in the examples below: the
    stream is the text still to be read, tokens are the maximal runs of
    characters other than blanks, and a word starting with a double quote
    is a malformed lexeme. *)

Module Words.

Definition istream : Type := string.

Fixpoint skip_blanks (text : string) : string :=
  match text with
  | String " "%char rest => skip_blanks rest
  | _ => text
  end.

Fixpoint read_word (text : string) : string :=
  match text with
  | EmptyString => EmptyString
  | String c rest =>
      if Ascii.eqb c " "%char then EmptyString else String c (read_word rest)
  end.

Definition double_quote : ascii := "034"%char.

Definition drop (n : nat) (text : string) : string :=
  substring n (String.length text - n) text.

Definition GetNext (reserved_chars : string) (reserved_words : list string)
    (b : ByteStream istream) : Outcome (option Token.t * ByteStream istream) :=
  if eof_reached_ b then Returned (None, b)
  else
    let text := skip_blanks (is_ b) in
    let blanks := Z.of_nat (String.length (is_ b) - String.length text) in
    match text with
    | EmptyString =>
        Returned (None,
                  {| is_ := EmptyString;
                     num_read_ := num_read_ b + blanks;
                     line_number_ := line_number_ b;
                     eof_reached_ := true;
                     oss_ := (oss_ b ++ is_ b)%string |})
    | String c _ =>
        if Ascii.eqb c double_quote
        then Fatal "StreamTokenizer: error: could not find closing double quote"
        else
        let word := read_word text in
        let after := num_read_ b + blanks + Z.of_nat (String.length word) in
        Returned (Some {| Token.tok := word;
                          Token.type :=
                            if in_dec string_dec word reserved_words
                            then RESERVED_WORD else IDENTIFIER;
                          Token.start := num_read_ b + blanks;
                          Token.line_number := line_number_ b;
                          Token.curr_pos := after |},
                  {| is_ := drop (String.length word) text;
                     num_read_ := after;
                     line_number_ := line_number_ b;
                     eof_reached_ := false;
                     oss_ :=
                       (oss_ b
                        ++ substring 0 (Z.to_nat (after - num_read_ b))
                                     (is_ b))%string |})
    end.

(** The object constructed over [text] and what the calls [cs] make of
    it; the empty object where the session does not return. *)
Definition after (text : string) (cs : list Call) : StreamTokenizer istream :=
  match session GetNext text DEFAULT_RESERVED_CHARS cs with
  | Returned r => fst r
  | _ => {| bytes_ := {| is_ := EmptyString; num_read_ := 0;
                         line_number_ := 0; eof_reached_ := false;
                         oss_ := EmptyString |};
            reserved_chars_ := EmptyString;
            num_reserved_chars_ := 0;
            reserved_words_ := [];
            token_ := [];
            next_token_idx_ := 0 |}
  end.

Definition ledger_after (text : string) (cs : list Call) : Ledger :=
  match session GetNext text DEFAULT_RESERVED_CHARS cs with
  | Returned r => snd r
  | _ => {| consumed := []; outstanding := [] |}
  end.

(** Sample objects: just constructed over two words, after one [Next],
    after both, and constructed over no text at all. *)
Definition sample : StreamTokenizer istream :=
  Eval vm_compute in after "ab cd" [].

Definition sample_next : StreamTokenizer istream :=
  Eval vm_compute in after "ab cd" [call_Next].

Definition sample_end : StreamTokenizer istream :=
  Eval vm_compute in after "ab cd" [call_Next; call_Next].

Definition sample_empty : StreamTokenizer istream :=
  Eval vm_compute in after EmptyString [].

(** The ledger after one [Next] and a [Rewind()]. *)
Definition sample_ledger : Ledger :=
  Eval vm_compute in ledger_after "ab cd" [call_Next; call_Rewind0].

(** [sample_end] rewound and read through again, with the ledger of that
    second reading. *)
Definition sample_replayed : StreamTokenizer istream * Ledger :=
  Eval vm_compute in
    match run GetNext [call_Rewind0; call_Next; call_Next] sample_end
              {| consumed := []; outstanding := [] |} with
    | Returned r => r
    | _ => (sample_end, {| consumed := []; outstanding := [] |})
    end.

End Words.

(** Bounds between closed numbers. *)
Ltac closed_bounds :=
  unfold representable, cursor_in_history, size_t_ok;
  repeat split; vm_compute; (reflexivity || (intro; discriminate)).

(** ** Properties of the cursor API *)

Unset Implicit Arguments.

Section Properties.

Variable istream : Type.
Variable GetNext :
  string -> list string -> ByteStream istream
  -> Outcome (option Token.t * ByteStream istream).

Implicit Types s : StreamTokenizer istream.

(** *** Arithmetic and vectors *)

Lemma size_t_add_exact x y :
  0 <= x + y < size_t_modulus -> size_t_add x y = x + y.
Proof. intros H. unfold size_t_add. now apply Z.mod_small. Qed.

Lemma size_t_sub_exact x y :
  0 <= x - y < size_t_modulus -> size_t_sub x y = x - y.
Proof. intros H. unfold size_t_sub. now apply Z.mod_small. Qed.

Lemma size_t_add_bounds x y : 0 <= x + y -> 0 <= size_t_add x y <= x + y.
Proof.
  intros H. unfold size_t_add, size_t_modulus.
  split; [apply Z.mod_pos_bound | apply Z.mod_le]; lia.
Qed.

Lemma size_t_sub_bounds x y : 0 <= x - y -> 0 <= size_t_sub x y <= x - y.
Proof.
  intros H. unfold size_t_sub, size_t_modulus.
  split; [apply Z.mod_pos_bound | apply Z.mod_le]; lia.
Qed.

Lemma size_nonneg {A : Type} (v : list A) : 0 <= size v.
Proof. unfold size. lia. Qed.

Lemma subscript_in_range {A : Type} (v : list A) (i : Z) :
  0 <= i < size v -> exists x, subscript v i = Returned x.
Proof.
  intros [H0 H1]. unfold subscript.
  destruct (Z.ltb_spec i 0) as [|_]; [lia|].
  destruct (nth_error v (Z.to_nat i)) as [x|] eqn:E; [now exists x|].
  apply nth_error_None in E. unfold size in H1. lia.
Qed.

Lemma subscript_returned {A : Type} (v : list A) (i : Z) (x : A) :
  subscript v i = Returned x ->
  0 <= i < size v /\ nth_error v (Z.to_nat i) = Some x.
Proof.
  unfold subscript. destruct (Z.ltb_spec i 0) as [|H0]; [discriminate|].
  destruct (nth_error v (Z.to_nat i)) as [y|] eqn:E; [|discriminate].
  intros [= ->]. split; [|reflexivity].
  assert (Z.to_nat i < List.length v)%nat by (apply nth_error_Some; congruence).
  unfold size. lia.
Qed.

Lemma subscript_app {A : Type} (v w : list A) (i : Z) (x : A) :
  subscript v i = Returned x -> subscript (v ++ w) i = Returned x.
Proof.
  intros H. destruct (subscript_returned _ _ _ H) as [[H0 H1] E].
  unfold subscript. destruct (Z.ltb_spec i 0) as [|_]; [lia|].
  rewrite nth_error_app1, E; [reflexivity|]. unfold size in H1. lia.
Qed.

(** *** [HasNext] and [HasPrev] as comparisons *)

Lemma HasNext_true s :
  HasNext s = true <-> next_token_idx_ s < size (token_ s).
Proof. unfold HasNext. apply Z.ltb_lt. Qed.

Lemma HasNext_false s :
  HasNext s = false <-> size (token_ s) <= next_token_idx_ s.
Proof. unfold HasNext. apply Z.ltb_ge. Qed.

Lemma HasPrev_true s :
  HasPrev s = true <-> 0 < next_token_idx_ s.
Proof. unfold HasPrev. rewrite Z.gtb_ltb. apply Z.ltb_lt. Qed.

Lemma HasPrev_false s :
  HasPrev s = false <-> next_token_idx_ s <= 0.
Proof. unfold HasPrev. rewrite Z.gtb_ltb. apply Z.ltb_ge. Qed.

(** The guard of the look-ahead, without the modular sum. *)
Lemma about_to_run_out_spec s :
  representable s -> HasNext s = true ->
  about_to_run_out s
  = negb (eof_reached_ (bytes_ s))
    && (next_token_idx_ s + 1 =? size (token_ s)).
Proof.
  intros [[Hi _] [_ Hn]] Hnext%HasNext_true. unfold about_to_run_out.
  rewrite size_t_add_exact by lia. reflexivity.
Qed.

(** *** The look-ahead *)

Lemma fetch_spec s :
  fetch GetNext s
  = r <- GetNext (reserved_chars_ s) (reserved_words_ s) (bytes_ s) ;;
    Returned (fetched s r).
Proof.
  unfold fetch, fetched.
  destruct (GetNext _ _ _) as [[[next|] b]| |]; reflexivity.
Qed.

Lemma fetched_cursor s r : next_token_idx_ (fetched s r) = next_token_idx_ s.
Proof. unfold fetched. now destruct (fst r). Qed.

Lemma fetched_token s r :
  token_ (fetched s r)
  = token_ s ++ match fst r with Some next => [next] | None => [] end.
Proof.
  unfold fetched. destruct (fst r); simpl; [reflexivity|].
  now rewrite app_nil_r.
Qed.

(** *** [Next] *)

(** [Next] in a state with a next token: the look-ahead, then the cursor
    moves on and the text of the token that was at the cursor is
    returned. *)
Lemma Next_with_next s :
  0 <= next_token_idx_ s -> HasNext s = true ->
  exists t,
    subscript (token_ s) (next_token_idx_ s) = Returned t /\
    Next GetNext s
    = s1 <- (if about_to_run_out s
             then r <- GetNext (reserved_chars_ s) (reserved_words_ s)
                               (bytes_ s) ;;
                  Returned (fetched s r)
             else Returned s) ;;
      Returned (Token.tok t,
                set_next_token_idx s1 (size_t_add (next_token_idx_ s) 1)).
Proof.
  intros Hi Hnext.
  destruct (subscript_in_range (token_ s) (next_token_idx_ s)) as [t Ht].
  { apply HasNext_true in Hnext. lia. }
  exists t. split; [exact Ht|].
  assert (Hadvance : forall s1,
    next_token_idx_ s1 = next_token_idx_ s ->
    (exists more, token_ s1 = token_ s ++ more) ->
    (let s2 :=
       if next_token_idx_ s1 <? size (token_ s1)
       then set_next_token_idx s1 (size_t_add (next_token_idx_ s1) 1)
       else s1 in
     t <- subscript (token_ s2) (next_token_idx_ s) ;;
     Returned (Token.tok t, s2))
    = Returned (Token.tok t,
                set_next_token_idx s1 (size_t_add (next_token_idx_ s) 1))).
  { intros s1 Hidx [more Hmore]. cbv zeta.
    destruct (subscript_returned _ _ _ Ht) as [[_ Hlt] _].
    assert (size (token_ s) <= size (token_ s1)).
    { rewrite Hmore. unfold size. rewrite length_app. lia. }
    rewrite Hidx.
    destruct (Z.ltb_spec (next_token_idx_ s) (size (token_ s1))) as [_|]; [|lia].
    simpl token_. rewrite Hmore, (subscript_app _ _ _ _ Ht). reflexivity. }
  unfold Next. rewrite Hnext. cbn [negb bind].
  destruct (about_to_run_out s).
  - rewrite fetch_spec.
    destruct (GetNext _ _ _) as [r| |]; cbn [bind]; try reflexivity.
    apply Hadvance; [apply fetched_cursor|eexists; apply fetched_token].
  - cbn [bind]. apply Hadvance; [reflexivity|].
    exists []. now rewrite app_nil_r.
Qed.

(** C1. In a state where [HasNext()] is true, [Next()] classifies at
    most once, and only when the cursor sits at the last buffered token
    while end of input has not been flagged; the token this
    classification yields is appended to the history; the cursor then
    advances by one and the text returned is that of the token that was
    at the cursor.  The object handed back is given member by member.  A
    classification that escalates a fatal lexical error ends the call
    with that error. *)
Theorem Next_consumes_with_lookahead s :
  representable s -> HasNext s = true ->
  exists t,
    subscript (token_ s) (next_token_idx_ s) = Returned t /\
    if negb (eof_reached_ (bytes_ s))
       && (next_token_idx_ s + 1 =? size (token_ s))
    then
      match GetNext (reserved_chars_ s) (reserved_words_ s) (bytes_ s) with
      | Returned (Some next, b) =>
          exists s',
            Next GetNext s = Returned (Token.tok t, s')
            /\ next_token_idx_ s' = next_token_idx_ s + 1
            /\ token_ s' = token_ s ++ [next]
            /\ bytes_ s' = b
            /\ reserved_chars_ s' = reserved_chars_ s
            /\ num_reserved_chars_ s' = num_reserved_chars_ s
            /\ reserved_words_ s' = reserved_words_ s
      | Returned (None, b) =>
          exists s',
            Next GetNext s = Returned (Token.tok t, s')
            /\ next_token_idx_ s' = next_token_idx_ s + 1
            /\ token_ s' = token_ s
            /\ bytes_ s' = b
            /\ reserved_chars_ s' = reserved_chars_ s
            /\ num_reserved_chars_ s' = num_reserved_chars_ s
            /\ reserved_words_ s' = reserved_words_ s
      | Fatal message => Next GetNext s = Fatal message
      | Undefined => Next GetNext s = Undefined
      end
    else
      exists s',
        Next GetNext s = Returned (Token.tok t, s')
        /\ next_token_idx_ s' = next_token_idx_ s + 1
        /\ token_ s' = token_ s
        /\ bytes_ s' = bytes_ s
        /\ reserved_chars_ s' = reserved_chars_ s
        /\ num_reserved_chars_ s' = num_reserved_chars_ s
        /\ reserved_words_ s' = reserved_words_ s.
Proof.
  intros Hrep Hnext.
  destruct (Next_with_next s (proj1 (proj1 Hrep)) Hnext) as [t [Ht HN]].
  exists t. split; [exact Ht|].
  rewrite HN, (about_to_run_out_spec s Hrep Hnext).
  rewrite size_t_add_exact.
  2:{ apply HasNext_true in Hnext. destruct Hrep as [[? _] [_ ?]]. lia. }
  destruct (negb _ && _).
  - destruct (GetNext _ _ _) as [[[next|] b]| |]; cbn [bind];
      try reflexivity;
      (eexists; split; [reflexivity|]); unfold fetched;
      cbn [fst snd set_next_token_idx set_token set_bytes next_token_idx_
           token_ bytes_ reserved_chars_ num_reserved_chars_
           reserved_words_];
      repeat split.
  - cbn [bind]. eexists. split; [reflexivity|].
    cbn [set_next_token_idx next_token_idx_ token_ bytes_ reserved_chars_
         num_reserved_chars_ reserved_words_].
    repeat split.
Qed.

(** C2. In a state where [HasNext()] is false, [Next()] hands the
    protocol violation to the fatal error collaborator and returns no
    value. *)
Theorem Next_without_next_is_fatal s :
  HasNext s = false ->
  Next GetNext s
  = Fatal "invoking StreamTokenizer::Next when HasNext returns false"
  /\ forall r, Next GetNext s <> Returned r.
Proof.
  intros H. unfold Next. rewrite H. cbn. split; [reflexivity|discriminate].
Qed.

(** *** What a returning call does to the object *)

Lemma fetched_bytes s r : bytes_ (fetched s r) = snd r.
Proof. unfold fetched. now destruct (fst r). Qed.

Lemma const_member_returned {A : Type} (wrap : A -> Value)
    (f : StreamTokenizer istream -> Outcome A) s v s' :
  const_member wrap f s = Returned (v, s') ->
  s' = s /\ exists a, f s = Returned a /\ v = wrap a.
Proof.
  unfold const_member. destruct (f s) as [a| |]; cbn; try discriminate.
  intros [= <- <-]. split; [reflexivity|]. now exists a.
Qed.

Lemma Next_returned s x s' :
  0 <= next_token_idx_ s ->
  Next GetNext s = Returned (x, s') ->
  HasNext s = true
  /\ exists t s1,
       subscript (token_ s) (next_token_idx_ s) = Returned t
       /\ x = Token.tok t
       /\ looked_ahead GetNext s s1
       /\ s' = set_next_token_idx s1 (size_t_add (next_token_idx_ s) 1).
Proof.
  intros Hi HN.
  destruct (HasNext s) eqn:Hnext.
  2:{ unfold Next in HN. rewrite Hnext in HN. discriminate. }
  split; [reflexivity|].
  destruct (Next_with_next s Hi Hnext) as [t [Ht E]]. rewrite E in HN.
  exists t. unfold looked_ahead.
  destruct (about_to_run_out s).
  - destruct (GetNext _ _ _) as [r| |] eqn:G; cbn in HN; try discriminate.
    injection HN as <- <-. exists (fetched s r).
    repeat split; try assumption. right. split; [reflexivity|]. now exists r.
  - cbn in HN. injection HN as <- <-. exists s.
    repeat split; try assumption. now left.
Qed.

Lemma looked_ahead_token s s1 :
  looked_ahead GetNext s s1 ->
  exists more, token_ s1 = token_ s ++ more /\ (List.length more <= 1)%nat.
Proof.
  intros [[_ ->]|[_ [r [_ ->]]]].
  - exists []. rewrite app_nil_r. split; [reflexivity|simpl; lia].
  - rewrite fetched_token. eexists. split; [reflexivity|].
    destruct (fst r); simpl; lia.
Qed.

Lemma Rewind_spec n s :
  0 <= next_token_idx_ s -> 0 <= n ->
  exists i,
    Rewind n s = set_next_token_idx s i
    /\ 0 <= i <= next_token_idx_ s
    /\ (size_t_ok (next_token_idx_ s) -> i = Z.max 0 (next_token_idx_ s - n)).
Proof.
  intros Hi Hn. unfold Rewind. eexists. split; [reflexivity|].
  rewrite Z.gtb_ltb.
  destruct (Z.ltb_spec (next_token_idx_ s) n).
  - pose proof (size_t_sub_bounds (next_token_idx_ s) (next_token_idx_ s)).
    split; [lia|]. intros [_ ?].
    rewrite size_t_sub_exact by (unfold size_t_modulus in *; lia). lia.
  - pose proof (size_t_sub_bounds (next_token_idx_ s) n).
    split; [lia|]. intros [_ ?].
    rewrite size_t_sub_exact by (unfold size_t_modulus in *; lia). lia.
Qed.

Lemma cursor_after_Next s s1 :
  cursor_in_history s -> HasNext s = true -> looked_ahead GetNext s s1 ->
  cursor_in_history
    (set_next_token_idx s1 (size_t_add (next_token_idx_ s) 1)).
Proof.
  intros [H0 H1] Hnext%HasNext_true Hl.
  destruct (looked_ahead_token s s1 Hl) as [more [E _]].
  unfold cursor_in_history. simpl. rewrite E.
  pose proof (size_t_add_bounds (next_token_idx_ s) 1).
  unfold size in *. rewrite length_app. lia.
Qed.

Lemma invoke_keeps_history c s v s' :
  argument_ok c -> cursor_in_history s ->
  invoke GetNext c s = Returned (v, s') ->
  (exists more, token_ s' = token_ s ++ more)
  /\ size (token_ s) <= size (token_ s')
  /\ cursor_in_history s'.
Proof.
  intros Harg Hc H.
  assert (Hkeep : token_ s' = token_ s -> cursor_in_history s' ->
            (exists more, token_ s' = token_ s ++ more)
            /\ size (token_ s) <= size (token_ s') /\ cursor_in_history s').
  { intros E ?. rewrite E.
    split; [exists []; now rewrite app_nil_r | split; [lia | assumption]]. }
  assert (Hrewind : forall n, 0 <= n -> s' = Rewind n s ->
            token_ s' = token_ s /\ cursor_in_history s').
  { intros n Hn ->. destruct (Rewind_spec n s) as [i [-> [Hi _]]];
      [apply Hc|exact Hn|].
    split; [reflexivity|]. unfold cursor_in_history in *. simpl. lia. }
  destruct c; cbn [invoke] in H;
    try (apply const_member_returned in H; destruct H as [-> _];
         now apply Hkeep).
  - injection H as _ <-. now apply Hkeep.
  - destruct (Next GetNext s) as [[x s2]| |] eqn:HN; cbn in H;
      try discriminate.
    injection H as _ <-.
    destruct (Next_returned s x s2 (proj1 Hc) HN)
      as [Hnext [t [s1 [_ [_ [Hl ->]]]]]].
    pose proof (cursor_after_Next s s1 Hc Hnext Hl) as Hc'.
    destruct (looked_ahead_token s s1 Hl) as [more [E _]].
    simpl token_ in *. split; [now exists more|]. split; [|exact Hc'].
    rewrite E. unfold size. rewrite length_app. lia.
  - injection H as _ <-. apply Hkeep; [reflexivity|].
    unfold cursor_in_history in *. simpl.
    pose proof (size_nonneg (token_ s)). lia.
  - injection H as _ <-. apply Hkeep; apply (Hrewind num_tokens);
      try reflexivity; apply Harg.
  - injection H as _ <-. apply Hkeep; apply (Hrewind 1);
      try reflexivity; lia.
Qed.

(** C4. A public call that returns leaves the history it found as a
    prefix of the history it hands back, so the history never shrinks,
    and it keeps the cursor within [0, history length]; only [Next] ever
    changes the history, so [Rewind()], [Rewind(n)], [Putback()] and the
    queries delete nothing. *)
Theorem public_calls_preserve_history c s v s' :
  argument_ok c -> cursor_in_history s ->
  invoke GetNext c s = Returned (v, s') ->
  (exists more, token_ s' = token_ s ++ more)
  /\ size (token_ s) <= size (token_ s')
  /\ cursor_in_history s'
  /\ (c <> call_Next -> token_ s' = token_ s).
Proof.
  intros Harg Hc H.
  destruct (invoke_keeps_history c s v s' Harg Hc H)
    as [Hprefix [Hsize Hc']].
  repeat (split; [assumption|]).
  intros Hcall.
  destruct c; cbn [invoke] in H; try congruence;
    try (apply const_member_returned in H; destruct H as [-> _];
         reflexivity);
    injection H as _ <-; reflexivity.
Qed.

(** *** Rewinding *)

Lemma Rewind_exact n s :
  size_t_ok (next_token_idx_ s) -> 0 <= n ->
  Rewind n s = set_next_token_idx s (Z.max 0 (next_token_idx_ s - n)).
Proof.
  intros Hi Hn.
  destruct (Rewind_spec n s) as [i [-> [_ E]]]; [apply Hi|exact Hn|].
  now rewrite (E Hi).
Qed.

(** C5, as amended. For a count [n] whose double is still a [size_t],
    so that the caller of [Rewind(2 * n)] passes [2n] itself, [Rewind(n)]
    twice moves the cursor where that single call moves it: back by
    [2n], stopping at 0. *)
Theorem Rewind_twice n s :
  size_t_ok (next_token_idx_ s) -> 0 <= n -> size_t_ok (2 * n) ->
  size_t_mul 2 n = 2 * n
  /\ Rewind n (Rewind n s) = Rewind (size_t_mul 2 n) s
  /\ next_token_idx_ (Rewind (size_t_mul 2 n) s)
     = Z.max 0 (next_token_idx_ s - 2 * n).
Proof.
  intros Hi Hn H2.
  assert (E : size_t_mul 2 n = 2 * n)
    by (unfold size_t_mul; now apply Z.mod_small).
  rewrite E. split; [reflexivity|].
  rewrite (Rewind_exact n s Hi Hn), (Rewind_exact (2 * n) s Hi) by lia.
  rewrite Rewind_exact; [|unfold size_t_ok in *; simpl; lia|exact Hn].
  unfold set_next_token_idx.
  cbn [bytes_ reserved_chars_ num_reserved_chars_ reserved_words_ token_
       next_token_idx_].
  split; [|reflexivity]. f_equal. lia.
Qed.

(** C6. Where [HasNext()] is true, [Putback()] after a [Next()] that
    returned makes [Peek()] answer the text that [Next()] returned, and
    [Next()] does return unless its one classification fails to;
    [Putback()] is [Rewind(1)]. *)
Theorem Putback_after_Next s :
  representable s -> HasNext s = true ->
  match Next GetNext s with
  | Returned (x, s') => Peek (Putback s') = Returned x
  | Fatal message =>
      about_to_run_out s = true
      /\ GetNext (reserved_chars_ s) (reserved_words_ s) (bytes_ s)
         = Fatal message
  | Undefined =>
      about_to_run_out s = true
      /\ GetNext (reserved_chars_ s) (reserved_words_ s) (bytes_ s)
         = Undefined
  end
  /\ forall s0 : StreamTokenizer istream, Putback s0 = Rewind 1 s0.
Proof.
  intros Hrep Hnext. split; [|reflexivity].
  destruct (Next_with_next s (proj1 (proj1 Hrep)) Hnext) as [t [Ht E]].
  assert (Hback : forall s1, looked_ahead GetNext s s1 ->
    Peek (Putback (set_next_token_idx s1 (size_t_add (next_token_idx_ s) 1)))
    = Returned (Token.tok t)).
  { intros s1 Hl.
    destruct (looked_ahead_token s s1 Hl) as [more [Emore _]].
    destruct (subscript_returned _ _ _ Ht) as [[H0 Hlt] _].
    destruct Hrep as [[_ Hi] [_ Hn]].
    rewrite size_t_add_exact by lia.
    unfold Putback. rewrite Rewind_exact;
      [|unfold size_t_ok; simpl; lia|lia].
    simpl next_token_idx_. unfold Peek, HasNext. simpl.
    replace (Z.max 0 (next_token_idx_ s + 1 - 1)) with (next_token_idx_ s)
      by lia.
    rewrite Emore, (subscript_app _ _ _ _ Ht).
    destruct (Z.ltb_spec (next_token_idx_ s) (size (token_ s ++ more)));
      [reflexivity|].
    unfold size in *. rewrite length_app in *. lia. }
  rewrite E. unfold looked_ahead in Hback.
  destruct (about_to_run_out s) eqn:Ha.
  - destruct (GetNext _ _ _) as [r| |] eqn:G; cbn [bind].
    + apply Hback. right. split; [reflexivity|]. now exists r.
    + now split.
    + now split.
  - cbn [bind]. apply Hback. now left.
Qed.

(** C7. Where [HasNext()] is false, [Peek()] answers the empty text,
    [PeekTokenType()] answers [EOF_TYPE], [PeekTokenStart()] the number
    of bytes read and [PeekTokenLineNumber()] the line count of the
    source, and each call hands back the object unchanged. *)
Theorem Peek_at_end s :
  HasNext s = false ->
  invoke GetNext call_Peek s = Returned (of_string EmptyString, s)
  /\ invoke GetNext call_PeekTokenType s = Returned (of_TokenType EOF_TYPE, s)
  /\ invoke GetNext call_PeekTokenStart s
     = Returned (of_size_t (num_read_ (bytes_ s)), s)
  /\ invoke GetNext call_PeekTokenLineNumber s
     = Returned (of_size_t (line_number_ (bytes_ s)), s).
Proof.
  intros H. cbn [invoke]. unfold const_member.
  unfold Peek, PeekTokenType, PeekTokenStart, PeekTokenLineNumber.
  rewrite H. cbn. repeat split.
Qed.

(** C10. After [Rewind()], whatever was consumed before, [HasPrev()] is
    false, [tellg()] and [PeekPrevTokenStart()] answer 0, [PeekPrev()]
    the empty text and [PeekPrevTokenType()] [EOF_TYPE]. *)
Theorem previous_token_after_Rewind0 s :
  HasPrev (Rewind0 s) = false
  /\ tellg (Rewind0 s) = Returned 0
  /\ PeekPrev (Rewind0 s) = Returned EmptyString
  /\ PeekPrevTokenStart (Rewind0 s) = Returned 0
  /\ PeekPrevTokenType (Rewind0 s) = Returned EOF_TYPE.
Proof.
  assert (H : HasPrev (Rewind0 s) = false)
    by (apply HasPrev_false; unfold Rewind0; simpl; lia).
  unfold tellg, PeekPrev, PeekPrevTokenStart, PeekPrevTokenType.
  rewrite H. repeat split.
Qed.

(** *** Reachable states *)

Lemma construct_returned input reserved_chars s :
  construct GetNext input reserved_chars = Returned s ->
  next_token_idx_ s = 0
  /\ exists r,
       GetNext reserved_chars
         (fold_left (fun words w => set_add string_dec w words)
                    default_reserved_words [])
         {| is_ := input; num_read_ := 0; line_number_ := 0;
            eof_reached_ := false; oss_ := EmptyString |}
       = Returned r
       /\ bytes_ s = snd r
       /\ token_ s = match fst r with Some next => [next] | None => [] end.
Proof.
  unfold construct, Init. rewrite fetch_spec.
  cbn [bytes_ reserved_chars_ reserved_words_].
  destruct (GetNext _ _ _) as [r| |]; cbn [bind]; try discriminate.
  intros [= <-]. rewrite fetched_cursor, fetched_bytes, fetched_token.
  split; [reflexivity|]. exists r. repeat split.
Qed.

Lemma reachable_cursor_in_history s :
  reachable GetNext s -> cursor_in_history s.
Proof.
  induction 1 as [input reserved_chars s H|c s v s' _ IH Harg H].
  - destruct (construct_returned _ _ _ H) as [Hi [r [_ [_ Ht]]]].
    unfold cursor_in_history. rewrite Hi. split; [lia|apply size_nonneg].
  - now destruct (invoke_keeps_history c s v s' Harg IH H).
Qed.

Section EndOfInput.

(** Modelled from the spec: the end-of-input contract of the classifier
    [GetNext], whose body lies outside the header embedded here.  The
    end-of-input flag stands for an exhausted source, and a classification
    answers [false] at true end of input only, which is final (sections 3,
    4.1 and 4.2 of the specification). *)
Hypothesis eof_reached_exhausted :
  forall b, eof_reached_ b = true -> exhausted GetNext b.
Hypothesis GetNext_false_exhausted :
  forall reserved_chars reserved_words b b',
    GetNext reserved_chars reserved_words b = Returned (None, b') ->
    exhausted GetNext b'.

(** The look-ahead invariant: a cursor at the end of the history means
    that the source is exhausted. *)
Lemma reachable_end_exhausted s :
  reachable GetNext s ->
  next_token_idx_ s = size (token_ s) -> exhausted GetNext (bytes_ s).
Proof.
  induction 1 as [input reserved_chars s H|c s v s' Hs IH Harg H].
  - destruct (construct_returned _ _ _ H) as [-> [[o b] [G [-> Ht]]]].
    rewrite Ht. destruct o; [discriminate|]. intros _.
    exact (GetNext_false_exhausted _ _ _ _ G).
  - pose proof (reachable_cursor_in_history s Hs) as Hc.
    assert (Hrewind : forall n, 0 <= n -> s' = Rewind n s ->
      next_token_idx_ s' = size (token_ s') -> exhausted GetNext (bytes_ s')).
    { intros n Hn ->. destruct (Rewind_spec n s) as [i [-> [Hi _]]];
        [apply Hc|exact Hn|].
      simpl. intros E. apply IH. unfold cursor_in_history in Hc. lia. }
    destruct c; cbn [invoke] in H;
      try (apply const_member_returned in H; destruct H as [-> _];
           exact IH).
    + injection H as _ <-. exact IH.
    + destruct (Next GetNext s) as [[x s2]| |] eqn:HN; cbn in H;
        try discriminate.
      injection H as _ <-.
      destruct (Next_returned s x s2 (proj1 Hc) HN)
        as [Hnext [t [s1 [_ [_ [Hl ->]]]]]].
      apply HasNext_true in Hnext. simpl. intros E.
      pose proof (size_t_add_bounds (next_token_idx_ s) 1) as Hb.
      destruct Hc as [H0 H1].
      destruct Hl as [[Ha ->]|[Ha [[o b] [G ->]]]].
      * apply eof_reached_exhausted.
        unfold about_to_run_out in Ha.
        destruct (eof_reached_ (bytes_ s)); [reflexivity|].
        simpl in Ha. apply Z.eqb_neq in Ha. lia.
      * rewrite fetched_bytes. rewrite fetched_token in E.
        destruct o as [next|]; simpl in *.
        -- unfold size in *. rewrite length_app in E. simpl in E. lia.
        -- exact (GetNext_false_exhausted _ _ _ _ G).
    + injection H as _ <-. apply (Hrewind (next_token_idx_ s));
        [apply Hc|].
      unfold Rewind, Rewind0. rewrite Z.gtb_ltb, Z.ltb_irrefl.
      unfold size_t_sub. now rewrite Z.sub_diag.
    + injection H as _ <-. apply (Hrewind num_tokens); [apply Harg|reflexivity].
    + injection H as _ <-. apply (Hrewind 1); [lia|reflexivity].
Qed.

(** C3. In a reachable state, [HasNext()] is true exactly when a
    token is buffered at the cursor or the source yields another one:
    it is never false while a token is still to be had. *)
Theorem HasNext_iff_token_available s :
  reachable GetNext s ->
  HasNext s = true <-> buffered_at_cursor s \/ may_yield GetNext s.
Proof.
  intros Hs. pose proof (reachable_cursor_in_history s Hs) as [H0 H1].
  assert (Hbuf : buffered_at_cursor s <-> HasNext s = true).
  { rewrite HasNext_true. unfold buffered_at_cursor. split.
    - intros [t Ht]. now destruct (subscript_returned _ _ _ Ht) as [[_ ?] _].
    - intros Hlt. apply subscript_in_range. lia. }
  split.
  - intros Hnext. left. now apply Hbuf.
  - intros [Hb|[next [b' G]]]; [now apply Hbuf|].
    destruct (HasNext s) eqn:Hnext; [reflexivity|].
    apply HasNext_false in Hnext.
    assert (Hend : next_token_idx_ s = size (token_ s)) by lia.
    destruct (reachable_end_exhausted s Hs Hend (reserved_chars_ s)
                (reserved_words_ s)) as [b G'].
    rewrite G in G'. discriminate.
Qed.

End EndOfInput.

(** *** The ledger of consumed tokens *)

Lemma firstn_succ {A : Type} (l : list A) (k : nat) (x : A) :
  nth_error l k = Some x -> firstn (S k) l = firstn k l ++ [x].
Proof.
  revert k. induction l as [|y l IH]; intros [|k] H; simpl in *;
    try discriminate.
  - now injection H as ->.
  - now rewrite <- IH.
Qed.

Lemma firstn_prefix {A : Type} (l more : list A) (k : nat) :
  (k <= List.length l)%nat -> firstn k (l ++ more) = firstn k l.
Proof.
  intros H. rewrite firstn_app.
  replace (k - List.length l)%nat with 0%nat by lia.
  simpl. apply app_nil_r.
Qed.

Lemma skipn_rev_firstn {A : Type} (l : list A) (k n : nat) :
  (k <= List.length l)%nat ->
  skipn n (rev (firstn k l)) = rev (firstn (k - n) l).
Proof.
  intros H. rewrite skipn_rev, length_firstn, firstn_firstn.
  f_equal. f_equal. lia.
Qed.

Lemma before_cursor_set s i :
  0 <= i <= next_token_idx_ s -> next_token_idx_ s <= size (token_ s) ->
  before_cursor (set_next_token_idx s i)
  = skipn (Z.to_nat (next_token_idx_ s - i)) (before_cursor s).
Proof.
  intros Hi Hc. unfold before_cursor. simpl.
  rewrite skipn_rev_firstn by (unfold size in Hc; lia).
  f_equal. f_equal. lia.
Qed.

Lemma before_cursor_Rewind n s :
  cursor_in_history s -> size_t_ok (size (token_ s)) -> 0 <= n ->
  before_cursor (Rewind n s) = skipn (Z.to_nat n) (before_cursor s).
Proof.
  intros [H0 H1] [_ Hn] Hpos.
  rewrite Rewind_exact by (unfold size_t_ok; lia || exact Hpos).
  rewrite before_cursor_set by lia.
  destruct (Z.le_ge_cases n (next_token_idx_ s)).
  - f_equal. lia.
  - replace (Z.max 0 (next_token_idx_ s - n)) with 0 by lia.
    rewrite Z.sub_0_r, !skipn_all2; [reflexivity| |];
      unfold before_cursor; rewrite length_rev, length_firstn; lia.
Qed.

Lemma before_cursor_Next s s1 t :
  cursor_in_history s -> size_t_ok (size (token_ s)) ->
  subscript (token_ s) (next_token_idx_ s) = Returned t ->
  looked_ahead GetNext s s1 ->
  before_cursor (set_next_token_idx s1 (size_t_add (next_token_idx_ s) 1))
  = t :: before_cursor s.
Proof.
  intros [H0 _] [_ Hn] Ht Hl.
  destruct (subscript_returned _ _ _ Ht) as [[_ Hlt] E].
  destruct (looked_ahead_token s s1 Hl) as [more [Emore _]].
  rewrite size_t_add_exact by lia.
  unfold before_cursor. simpl. rewrite Emore.
  replace (Z.to_nat (next_token_idx_ s + 1))
    with (S (Z.to_nat (next_token_idx_ s))) by lia.
  rewrite firstn_prefix by (unfold size in Hlt; lia).
  rewrite (firstn_succ _ _ _ E), rev_app_distr. reflexivity.
Qed.

Lemma driven_reachable s l : driven GetNext s l -> reachable GetNext s.
Proof.
  induction 1 as [input reserved_chars s H|c s l v s' _ IH Harg H].
  - exact (reachable_construct _ _ _ H).
  - exact (reachable_invoke c IH Harg H).
Qed.

Lemma driven_outstanding s l :
  driven GetNext s l -> size_t_ok (size (token_ s)) ->
  outstanding l = before_cursor s.
Proof.
  induction 1 as [input reserved_chars s H|c s l v s' Hs IH Harg H];
    intros Hrep.
  - destruct (construct_returned _ _ _ H) as [Hi _].
    unfold before_cursor. now rewrite Hi.
  - pose proof (reachable_cursor_in_history s (driven_reachable s l Hs)) as Hc.
    destruct (invoke_keeps_history c s v s' Harg Hc H)
      as [_ [Hle _]].
    assert (Hrep0 : size_t_ok (size (token_ s))).
    { split; [apply size_nonneg|]. destruct Hrep. lia. }
    specialize (IH Hrep0).
    destruct c; cbn [invoke] in H;
      try (apply const_member_returned in H; destruct H as [-> _];
           exact IH).
    + injection H as _ <-. exact IH.
    + destruct (Next GetNext s) as [[x s2]| |] eqn:HN; cbn in H;
        try discriminate.
      injection H as _ <-.
      destruct (Next_returned s x s2 (proj1 Hc) HN)
        as [_ [t [s1 [Ht [_ [Hl ->]]]]]].
      rewrite (before_cursor_Next s s1 t Hc Hrep0 Ht Hl).
      cbn [note]. rewrite Ht. cbn [outstanding]. now rewrite IH.
    + injection H as _ <-. reflexivity.
    + injection H as _ <-.
      rewrite (before_cursor_Rewind num_tokens s Hc Hrep0 (proj1 Harg)).
      cbn [note outstanding]. now rewrite IH.
    + injection H as _ <-. unfold Putback.
      rewrite (before_cursor_Rewind 1 s Hc Hrep0) by lia.
      cbn [note outstanding]. now rewrite IH.
Qed.

(** C8, as amended. [tellg()] answers the [positionAfter] of the token
    just before the cursor, that is, of the most recently consumed token
    that no [Rewind] or [Putback] has put back since, and 0 if there is
    no such token. *)
Theorem tellg_follows_the_cursor s l :
  driven GetNext s l -> size_t_ok (size (token_ s)) ->
  tellg s = Returned (position_after (outstanding l)).
Proof.
  intros Hs Hrep. rewrite (driven_outstanding s l Hs Hrep).
  destruct (reachable_cursor_in_history s (driven_reachable s l Hs))
    as [H0 H1].
  unfold tellg, before_cursor.
  destruct (HasPrev s) eqn:Hprev.
  - apply HasPrev_true in Hprev. destruct Hrep as [_ Hn].
    rewrite size_t_sub_exact by lia.
    destruct (subscript_in_range (token_ s) (next_token_idx_ s - 1))
      as [t Ht]; [lia|].
    rewrite Ht. cbn [bind].
    destruct (subscript_returned _ _ _ Ht) as [_ E].
    replace (Z.to_nat (next_token_idx_ s))
      with (S (Z.to_nat (next_token_idx_ s - 1))) by lia.
    rewrite (firstn_succ _ _ _ E), rev_app_distr. reflexivity.
  - apply HasPrev_false in Hprev.
    replace (next_token_idx_ s) with 0 by lia. reflexivity.
Qed.

(** *** Sessions *)

Lemma run_driven cs :
  forall s l s' l',
    driven GetNext s l -> Forall argument_ok cs ->
    run GetNext cs s l = Returned (s', l') -> driven GetNext s' l'.
Proof.
  induction cs as [|c cs IH]; intros s l s' l' Hs Hargs H; simpl in H.
  - now injection H as <- <-.
  - inversion Hargs as [|? ? Harg Hargs']; subst.
    destruct (invoke GetNext c s) as [[v s1]| |] eqn:Hc; cbn in H;
      try discriminate.
    exact (IH _ _ _ _ (driven_invoke c Hs Harg Hc) Hargs' H).
Qed.

Lemma session_driven input reserved_chars cs s l :
  Forall argument_ok cs ->
  session GetNext input reserved_chars cs = Returned (s, l) ->
  driven GetNext s l.
Proof.
  unfold session. intros Hargs H.
  destruct (construct GetNext input reserved_chars) as [s0| |] eqn:Hc;
    cbn in H; try discriminate.
  exact (run_driven cs _ _ _ _ (driven_construct _ _ _ Hc) Hargs H).
Qed.

End Properties.

(** ** Reading again after a rewind *)

Section Rereading.

Variable istream : Type.
Implicit Types s : StreamTokenizer istream.

Lemma same_but_cursor_set s i : same_but_cursor s (set_next_token_idx s i).
Proof. repeat split. Qed.

(** A cursor that a rewind has moved to a buffered token: the token is
    read from the history.  Whatever the classifier, the text [Next]
    returns is the stored one, and away from the last buffered token, or
    with end of input flagged, [Next] does not consult the classifier at
    all. *)
Lemma reread s i t :
  0 <= i -> i + 1 < size_t_modulus ->
  subscript (token_ s) i = Returned t ->
  Peek (set_next_token_idx s i) = Returned (Token.tok t)
  /\ PeekTokenType (set_next_token_idx s i) = Returned (Token.type t)
  /\ PeekTokenStart (set_next_token_idx s i) = Returned (Token.start t)
  /\ PeekTokenLineNumber (set_next_token_idx s i)
     = Returned (Token.line_number t)
  /\ (forall classifier x s',
        Next classifier (set_next_token_idx s i) = Returned (x, s') ->
        x = Token.tok t)
  /\ (i + 1 < size (token_ s) \/ eof_reached_ (bytes_ s) = true ->
      forall classifier,
        Next classifier (set_next_token_idx s i)
        = Returned (Token.tok t, set_next_token_idx s (i + 1))).
Proof.
  intros Hi Hrep Ht.
  destruct (subscript_returned _ _ _ Ht) as [[_ Hlt] _].
  assert (Hnext : HasNext (set_next_token_idx s i) = true).
  { apply HasNext_true. simpl. lia. }
  unfold Peek, PeekTokenType, PeekTokenStart, PeekTokenLineNumber.
  rewrite Hnext. simpl. rewrite Ht. cbn [bind].
  repeat (split; [reflexivity|]).
  split.
  - intros classifier x s' HN.
    destruct (Next_returned _ classifier (set_next_token_idx s i) x s' Hi HN)
      as [_ [t' [_ [Ht' [-> _]]]]].
    simpl in Ht'. congruence.
  - intros Hread classifier. unfold Next. rewrite Hnext. cbn [negb bind].
    assert (Ha : about_to_run_out (set_next_token_idx s i) = false).
    { unfold about_to_run_out. simpl. rewrite size_t_add_exact by lia.
      destruct Hread as [H| ->]; [|reflexivity].
      destruct (Z.eqb_spec (i + 1) (size (token_ s))); [lia|].
      apply andb_false_r. }
    rewrite Ha. cbn [bind]. simpl.
    destruct (Z.ltb_spec i (size (token_ s))); [|lia].
    simpl. rewrite Ht, size_t_add_exact by lia. reflexivity.
Qed.

(** C9. [Rewind()], [Rewind(n)] and [Putback()] leave the history, the
    count of bytes read, the line count, the end-of-input flag, the
    source and the configuration as they are.  The token at the position
    [Rewind(n)] moves the cursor to is then read from the history: the
    [Peek] family answers its fields; the text [Next] returns there is
    the stored one whatever the classifier; and away from the last
    buffered token, or with end of input flagged, [Next] moves the cursor
    on without consulting the classifier at all. *)
Theorem rewinding_moves_only_the_cursor n s :
  representable s -> 0 <= n ->
  same_but_cursor s (Rewind0 s)
  /\ same_but_cursor s (Rewind n s)
  /\ same_but_cursor s (Putback s)
  /\ let i := Z.max 0 (next_token_idx_ s - n) in
     next_token_idx_ (Rewind n s) = i
     /\ forall t,
          subscript (token_ s) i = Returned t ->
          Peek (Rewind n s) = Returned (Token.tok t)
          /\ PeekTokenType (Rewind n s) = Returned (Token.type t)
          /\ PeekTokenStart (Rewind n s) = Returned (Token.start t)
          /\ PeekTokenLineNumber (Rewind n s)
             = Returned (Token.line_number t)
          /\ (forall classifier x s',
                Next classifier (Rewind n s) = Returned (x, s') ->
                x = Token.tok t)
          /\ (i + 1 < size (token_ s) \/ eof_reached_ (bytes_ s) = true ->
              forall classifier,
                Next classifier (Rewind n s)
                = Returned (Token.tok t, set_next_token_idx s (i + 1))).
Proof.
  intros [Hi Hn] H0.
  split; [apply same_but_cursor_set|].
  split; [apply same_but_cursor_set|].
  split; [apply same_but_cursor_set|].
  cbv zeta. rewrite (Rewind_exact _ n s Hi H0).
  split; [reflexivity|]. intros t Ht.
  destruct (subscript_returned _ _ _ Ht) as [[? ?] _].
  apply reread; [lia| |exact Ht].
  destruct Hn. lia.
Qed.

End Rereading.

(** ** The sample classifier meets the end-of-input contract *)

Lemma Words_eof_reached_exhausted (b : ByteStream Words.istream) :
  eof_reached_ b = true -> exhausted Words.GetNext b.
Proof.
  intros H reserved_chars reserved_words. unfold Words.GetNext.
  rewrite H. now exists b.
Qed.

Lemma Words_GetNext_false_exhausted reserved_chars reserved_words
    (b b' : ByteStream Words.istream) :
  Words.GetNext reserved_chars reserved_words b = Returned (None, b') ->
  exhausted Words.GetNext b'.
Proof.
  unfold Words.GetNext. destruct (eof_reached_ b) eqn:E.
  - intros [= <-]. now apply Words_eof_reached_exhausted.
  - destruct (Words.skip_blanks (is_ b)) as [|c rest].
    + intros [= <-]. now apply Words_eof_reached_exhausted.
    + destruct (Ascii.eqb c Words.double_quote); discriminate.
Qed.

Lemma Words_sample_driven :
  driven Words.GetNext (Words.after "ab cd" [call_Next; call_Rewind0])
         Words.sample_ledger.
Proof.
  apply (session_driven _ Words.GetNext "ab cd"%string DEFAULT_RESERVED_CHARS
           [call_Next; call_Rewind0]).
  - repeat constructor.
  - vm_compute. reflexivity.
Qed.

(** ** The theorems at work on the sample classifier *)

Lemma Words_sample_end_driven :
  driven Words.GetNext Words.sample_end
         (Words.ledger_after "ab cd" [call_Next; call_Next]).
Proof.
  apply (session_driven _ Words.GetNext "ab cd"%string DEFAULT_RESERVED_CHARS
           [call_Next; call_Next]).
  - repeat constructor.
  - vm_compute. reflexivity.
Qed.

Lemma Words_sample_representable : representable Words.sample.
Proof. closed_bounds. Defined.

Lemma Next_consumes_with_lookahead_witness :
  representable Words.sample /\ HasNext Words.sample = true /\
  exists t,
    subscript (token_ Words.sample) (next_token_idx_ Words.sample) = Returned t /\
    if negb (eof_reached_ (bytes_ Words.sample))
       && (next_token_idx_ Words.sample + 1 =? size (token_ Words.sample))
    then
      match Words.GetNext (reserved_chars_ Words.sample)
              (reserved_words_ Words.sample) (bytes_ Words.sample) with
      | Returned (Some next, b) =>
          exists s',
            Next Words.GetNext Words.sample = Returned (Token.tok t, s')
            /\ next_token_idx_ s' = next_token_idx_ Words.sample + 1
            /\ token_ s' = token_ Words.sample ++ [next]
            /\ bytes_ s' = b
            /\ reserved_chars_ s' = reserved_chars_ Words.sample
            /\ num_reserved_chars_ s' = num_reserved_chars_ Words.sample
            /\ reserved_words_ s' = reserved_words_ Words.sample
      | Returned (None, b) =>
          exists s',
            Next Words.GetNext Words.sample = Returned (Token.tok t, s')
            /\ next_token_idx_ s' = next_token_idx_ Words.sample + 1
            /\ token_ s' = token_ Words.sample
            /\ bytes_ s' = b
            /\ reserved_chars_ s' = reserved_chars_ Words.sample
            /\ num_reserved_chars_ s' = num_reserved_chars_ Words.sample
            /\ reserved_words_ s' = reserved_words_ Words.sample
      | Fatal message => Next Words.GetNext Words.sample = Fatal message
      | Undefined => Next Words.GetNext Words.sample = Undefined
      end
    else
      exists s',
        Next Words.GetNext Words.sample = Returned (Token.tok t, s')
        /\ next_token_idx_ s' = next_token_idx_ Words.sample + 1
        /\ token_ s' = token_ Words.sample
        /\ bytes_ s' = bytes_ Words.sample
        /\ reserved_chars_ s' = reserved_chars_ Words.sample
        /\ num_reserved_chars_ s' = num_reserved_chars_ Words.sample
        /\ reserved_words_ s' = reserved_words_ Words.sample.
Proof.
  split; [exact Words_sample_representable|].
  split; [reflexivity|].
  apply (Next_consumes_with_lookahead _ Words.GetNext Words.sample).
  - exact Words_sample_representable.
  - reflexivity.
Defined.

Lemma Next_without_next_is_fatal_witness :
  HasNext Words.sample_empty = false /\
  (Next Words.GetNext Words.sample_empty
   = Fatal "invoking StreamTokenizer::Next when HasNext returns false"
   /\ forall r, Next Words.GetNext Words.sample_empty <> Returned r).
Proof.
  split; [reflexivity|].
  apply (Next_without_next_is_fatal _ Words.GetNext Words.sample_empty).
  reflexivity.
Defined.

Lemma HasNext_iff_token_available_witness :
  (forall b, eof_reached_ b = true -> exhausted Words.GetNext b) /\
  (forall reserved_chars reserved_words b b',
     Words.GetNext reserved_chars reserved_words b = Returned (None, b') ->
     exhausted Words.GetNext b') /\
  reachable Words.GetNext Words.sample_end /\
  (HasNext Words.sample_end = true
   <-> buffered_at_cursor Words.sample_end
       \/ may_yield Words.GetNext Words.sample_end).
Proof.
  assert (H : reachable Words.GetNext Words.sample_end)
    by exact (driven_reachable _ _ _ _ Words_sample_end_driven).
  split; [exact Words_eof_reached_exhausted|].
  split; [exact Words_GetNext_false_exhausted|].
  split; [exact H|].
  exact (HasNext_iff_token_available _ Words.GetNext
           Words_eof_reached_exhausted Words_GetNext_false_exhausted
           Words.sample_end H).
Defined.

Lemma public_calls_preserve_history_witness :
  argument_ok call_Next /\ cursor_in_history Words.sample /\
  invoke Words.GetNext call_Next Words.sample
  = Returned (of_string "ab", Words.sample_next) /\
  ((exists more, token_ Words.sample_next = token_ Words.sample ++ more)
   /\ size (token_ Words.sample) <= size (token_ Words.sample_next)
   /\ cursor_in_history Words.sample_next
   /\ (call_Next <> call_Next -> token_ Words.sample_next = token_ Words.sample)).
Proof.
  assert (Hc : cursor_in_history Words.sample)
    by closed_bounds.
  split; [exact I|]. split; [exact Hc|]. split; [reflexivity|].
  apply (public_calls_preserve_history _ Words.GetNext call_Next
           Words.sample (of_string "ab") Words.sample_next I Hc).
  reflexivity.
Defined.

Lemma Rewind_twice_witness :
  size_t_ok (next_token_idx_ Words.sample_end) /\ 0 <= 1 /\
  size_t_ok (2 * 1) /\
  (size_t_mul 2 1 = 2 * 1
   /\ Rewind 1 (Rewind 1 Words.sample_end)
      = Rewind (size_t_mul 2 1) Words.sample_end
   /\ next_token_idx_ (Rewind (size_t_mul 2 1) Words.sample_end)
      = Z.max 0 (next_token_idx_ Words.sample_end - 2 * 1)).
Proof.
  assert (Hi : size_t_ok (next_token_idx_ Words.sample_end))
    by closed_bounds.
  assert (H2 : size_t_ok (2 * 1)) by closed_bounds.
  split; [exact Hi|]. split; [lia|]. split; [exact H2|].
  apply (Rewind_twice _ 1 Words.sample_end Hi); [lia|exact H2].
Defined.

(** C5, as stated, fails: [2^63] is a [size_t], its double is not, and
    the argument that [Rewind(2 * n)] receives is [2 * n] reduced modulo
    [2^64], that is 0.  With the cursor at 2, [Rewind(n)] twice brings the
    cursor to 0 while [Rewind(2 * n)] leaves it at 2. *)
Lemma Rewind_twice_overflow_counterexample :
  size_t_ok (2 ^ 63)
  /\ next_token_idx_ Words.sample_end = 2
  /\ size_t_mul 2 (2 ^ 63) = 0
  /\ next_token_idx_ (Rewind (2 ^ 63) (Rewind (2 ^ 63) Words.sample_end)) = 0
  /\ next_token_idx_ (Rewind (size_t_mul 2 (2 ^ 63)) Words.sample_end) = 2
  /\ Rewind (2 ^ 63) (Rewind (2 ^ 63) Words.sample_end)
     <> Rewind (size_t_mul 2 (2 ^ 63)) Words.sample_end.
Proof.
  split; [closed_bounds|].
  do 4 (split; [vm_compute; reflexivity|]).
  intros H. apply (f_equal (@next_token_idx_ _)) in H.
  vm_compute in H. discriminate H.
Qed.

Lemma Putback_after_Next_witness :
  representable Words.sample /\ HasNext Words.sample = true /\
  (match Next Words.GetNext Words.sample with
   | Returned (x, s') => Peek (Putback s') = Returned x
   | Fatal message =>
       about_to_run_out Words.sample = true
       /\ Words.GetNext (reserved_chars_ Words.sample)
            (reserved_words_ Words.sample) (bytes_ Words.sample)
          = Fatal message
   | Undefined =>
       about_to_run_out Words.sample = true
       /\ Words.GetNext (reserved_chars_ Words.sample)
            (reserved_words_ Words.sample) (bytes_ Words.sample)
          = Undefined
   end
   /\ forall s0 : StreamTokenizer Words.istream, Putback s0 = Rewind 1 s0).
Proof.
  split; [exact Words_sample_representable|].
  split; [reflexivity|].
  apply (Putback_after_Next _ Words.GetNext Words.sample
           Words_sample_representable).
  reflexivity.
Defined.

Lemma Peek_at_end_witness :
  HasNext Words.sample_end = false /\
  (invoke Words.GetNext call_Peek Words.sample_end
   = Returned (of_string EmptyString, Words.sample_end)
   /\ invoke Words.GetNext call_PeekTokenType Words.sample_end
      = Returned (of_TokenType EOF_TYPE, Words.sample_end)
   /\ invoke Words.GetNext call_PeekTokenStart Words.sample_end
      = Returned (of_size_t (num_read_ (bytes_ Words.sample_end)),
                  Words.sample_end)
   /\ invoke Words.GetNext call_PeekTokenLineNumber Words.sample_end
      = Returned (of_size_t (line_number_ (bytes_ Words.sample_end)),
                  Words.sample_end)).
Proof.
  split; [reflexivity|].
  apply (Peek_at_end _ Words.GetNext Words.sample_end). reflexivity.
Defined.

Lemma tellg_follows_the_cursor_witness :
  driven Words.GetNext Words.sample_end
         (Words.ledger_after "ab cd" [call_Next; call_Next]) /\
  size_t_ok (size (token_ Words.sample_end)) /\
  tellg Words.sample_end
  = Returned (position_after
                (outstanding (Words.ledger_after "ab cd" [call_Next; call_Next]))).
Proof.
  assert (Hn : size_t_ok (size (token_ Words.sample_end)))
    by closed_bounds.
  split; [exact Words_sample_end_driven|]. split; [exact Hn|].
  exact (tellg_follows_the_cursor _ Words.GetNext Words.sample_end _
           Words_sample_end_driven Hn).
Defined.

Lemma rewinding_moves_only_the_cursor_witness :
  representable Words.sample_end /\ 0 <= 1 /\
  (same_but_cursor Words.sample_end (Rewind0 Words.sample_end)
   /\ same_but_cursor Words.sample_end (Rewind 1 Words.sample_end)
   /\ same_but_cursor Words.sample_end (Putback Words.sample_end)
   /\ let i := Z.max 0 (next_token_idx_ Words.sample_end - 1) in
      next_token_idx_ (Rewind 1 Words.sample_end) = i
      /\ forall t,
           subscript (token_ Words.sample_end) i = Returned t ->
           Peek (Rewind 1 Words.sample_end) = Returned (Token.tok t)
           /\ PeekTokenType (Rewind 1 Words.sample_end)
              = Returned (Token.type t)
           /\ PeekTokenStart (Rewind 1 Words.sample_end)
              = Returned (Token.start t)
           /\ PeekTokenLineNumber (Rewind 1 Words.sample_end)
              = Returned (Token.line_number t)
           /\ (forall classifier x s',
                 Next classifier (Rewind 1 Words.sample_end) = Returned (x, s') ->
                 x = Token.tok t)
           /\ (i + 1 < size (token_ Words.sample_end)
               \/ eof_reached_ (bytes_ Words.sample_end) = true ->
               forall classifier,
                 Next classifier (Rewind 1 Words.sample_end)
                 = Returned (Token.tok t,
                             set_next_token_idx Words.sample_end (i + 1)))).
Proof.
  assert (Hrep : representable Words.sample_end)
    by closed_bounds.
  split; [exact Hrep|]. split; [lia|].
  apply (rewinding_moves_only_the_cursor _ 1 Words.sample_end Hrep). lia.
Defined.

(** C8, as stated, fails: construct over the text [ab cd], call [Next()]
    and then [Rewind()].  The token [ab], which ends at byte 2, has been
    consumed and is the most recently consumed one, yet [tellg()] answers
    0. *)
Lemma tellg_after_Rewind_counterexample :
  session Words.GetNext "ab cd"%string DEFAULT_RESERVED_CHARS
          [call_Next; call_Rewind0]
  = Returned (Words.after "ab cd" [call_Next; call_Rewind0],
              Words.sample_ledger)
  /\ position_after (consumed Words.sample_ledger) = 2
  /\ tellg (Words.after "ab cd" [call_Next; call_Rewind0]) = Returned 0
  /\ ~ (forall s l,
          driven Words.GetNext s l ->
          tellg s = Returned (position_after (consumed l))).
Proof.
  split; [vm_compute; reflexivity|].
  split; [reflexivity|].
  split; [vm_compute; reflexivity|].
  intros H. specialize (H _ _ Words_sample_driven).
  vm_compute in H. discriminate H.
Qed.

(** ** Further properties of the header *)

(** X3. Distinct token types have distinct names. *)
Theorem TypeName_injective (a b : TokenType) :
  TypeName a = TypeName b -> a = b.
Proof. destruct a, b; simpl; intros H; try reflexivity; discriminate H. Qed.

Lemma TypeName_injective_witness :
  TypeName NUMBER = TypeName NUMBER /\ NUMBER = NUMBER.
Proof.
  split; [reflexivity|]. apply (TypeName_injective NUMBER NUMBER). reflexivity.
Defined.

Section Construction.

Variable istream : Type.
Variable GetNext :
  string -> list string -> ByteStream istream
  -> Outcome (option Token.t * ByteStream istream).
Implicit Types s : StreamTokenizer istream.

Lemma set_add_fold_In (defaults words : list string) (w : string) :
  In w (fold_left (fun words w => set_add string_dec w words) defaults words)
  <-> In w words \/ In w defaults.
Proof.
  revert words. induction defaults as [|d defaults IH]; intros words; simpl.
  - tauto.
  - rewrite IH, set_add_iff. intuition congruence.
Qed.

Lemma set_add_fold_NoDup (defaults words : list string) :
  NoDup words ->
  NoDup (fold_left (fun words w => set_add string_dec w words) defaults words).
Proof.
  revert words. induction defaults as [|d defaults IH]; intros words H; simpl.
  - exact H.
  - apply IH. now apply set_add_nodup.
Qed.

(** X1. The constructor classifies one token eagerly.  It returns exactly when
    that classification does, and then the cursor is 0, the history holds
    the token the classifier yielded or nothing, the reserved characters
    are the ones given with their count, and the reserved words are the
    defaults, each once. *)
Theorem construct_fresh input reserved_chars :
  match
    GetNext reserved_chars
      (fold_left (fun words w => set_add string_dec w words)
                 default_reserved_words [])
      {| is_ := input; num_read_ := 0; line_number_ := 0;
         eof_reached_ := false; oss_ := EmptyString |}
  with
  | Returned (first, b) =>
      exists s,
        construct GetNext input reserved_chars = Returned s
        /\ bytes_ s = b
        /\ token_ s = match first with Some t => [t] | None => [] end
        /\ next_token_idx_ s = 0
        /\ HasPrev s = false
        /\ HasNext s = match first with Some _ => true | None => false end
        /\ reserved_chars_ s = reserved_chars
        /\ num_reserved_chars_ s = Z.of_nat (String.length reserved_chars)
        /\ (forall w, In w (reserved_words_ s) <-> In w default_reserved_words)
        /\ NoDup (reserved_words_ s)
  | Fatal message => construct GetNext input reserved_chars = Fatal message
  | Undefined => construct GetNext input reserved_chars = Undefined
  end.
Proof.
  unfold construct, Init. rewrite fetch_spec.
  cbn [bytes_ reserved_chars_ reserved_words_].
  destruct (GetNext _ _ _) as [[first b]| |]; cbn [bind]; try reflexivity.
  eexists. split; [reflexivity|].
  assert (Hwords : forall w,
            In w (fold_left (fun words w => set_add string_dec w words)
                            default_reserved_words [])
            <-> In w default_reserved_words).
  { intros w. rewrite set_add_fold_In. simpl In at 1. tauto. }
  assert (Hnodup : NoDup (fold_left
                            (fun words w => set_add string_dec w words)
                            default_reserved_words []))
    by (apply set_add_fold_NoDup; constructor).
  destruct first; unfold fetched;
    cbn [fst snd bytes_ token_ next_token_idx_ reserved_chars_
         num_reserved_chars_ reserved_words_ set_bytes set_token app];
    do 7 (split; [reflexivity|]); split; assumption.
Qed.

End Construction.

Section Header.

Variable istream : Type.
Variable GetNext :
  string -> list string -> ByteStream istream
  -> Outcome (option Token.t * ByteStream istream).
Implicit Types s : StreamTokenizer istream.

(** *** Reserved characters *)

Lemma get_after_prefix (pre suf : string) (x : ascii) :
  String.get (String.length pre) (pre ++ String x suf) = Some x.
Proof. induction pre as [|y pre IH]; simpl; [reflexivity|exact IH]. Qed.

Lemma append_one (pre suf : string) (x : ascii) :
  ((pre ++ String x EmptyString) ++ suf)%string = (pre ++ String x suf)%string.
Proof. induction pre as [|y pre IH]; simpl; [reflexivity|now rewrite IH]. Qed.

Lemma length_append_one (pre : string) (x : ascii) :
  String.length (pre ++ String x EmptyString) = S (String.length pre).
Proof. induction pre as [|y pre IH]; simpl; [reflexivity|now rewrite IH]. Qed.

Lemma length_append (pre suf : string) :
  String.length (pre ++ suf) = (String.length pre + String.length suf)%nat.
Proof. induction pre as [|y pre IH]; simpl; [reflexivity|now rewrite IH]. Qed.

Lemma ReservedChar_loop_spec s c :
  forall suf pre,
    reserved_chars_ s = (pre ++ suf)%string ->
    Z.of_nat (String.length (pre ++ suf)) < size_t_modulus ->
    ReservedChar_loop (String.length suf) (Z.of_nat (String.length pre)) s c
    = Returned (existsb (Ascii.eqb c) (list_ascii_of_string suf)).
Proof.
  induction suf as [|x suf IH]; intros pre E Hlen; simpl; [reflexivity|].
  rewrite Nat2Z.id, E, get_after_prefix.
  destruct (Ascii.eqb c x); [reflexivity|]. simpl.
  rewrite length_append in Hlen. simpl in Hlen.
  rewrite size_t_add_exact by lia.
  replace (Z.of_nat (String.length pre) + 1)
    with (Z.of_nat (String.length (pre ++ String x EmptyString)))
    by (rewrite length_append_one; lia).
  apply IH.
  - now rewrite append_one.
  - rewrite append_one, length_append. simpl. lia.
Qed.

Lemma invoke_keeps_reserved_chars c s v s' :
  0 <= next_token_idx_ s ->
  invoke GetNext c s = Returned (v, s') ->
  reserved_chars_ s' = reserved_chars_ s
  /\ num_reserved_chars_ s' = num_reserved_chars_ s.
Proof.
  intros Hi H.
  destruct c; cbn [invoke] in H;
    try (apply const_member_returned in H; destruct H as [-> _];
         now split);
    try (injection H as _ <-; now split).
  destruct (Next GetNext s) as [[x s2]| |] eqn:HN; cbn in H;
    try discriminate.
  injection H as _ <-.
  destruct (Next_returned _ _ s x s2 Hi HN) as [_ [t [s1 [_ [_ [Hl ->]]]]]].
  destruct Hl as [[_ ->]|[_ [r [_ ->]]]]; simpl; [now split|].
  unfold fetched. now destruct (fst r).
Qed.

Lemma reachable_reserved_chars s :
  reachable GetNext s ->
  num_reserved_chars_ s = Z.of_nat (String.length (reserved_chars_ s)).
Proof.
  induction 1 as [input reserved_chars s H|c s v s' Hs IH Harg H].
  - unfold construct, Init in H. rewrite fetch_spec in H.
    cbn [bytes_ reserved_chars_ reserved_words_] in H.
    destruct (GetNext _ _ _) as [r| |]; cbn [bind] in H; try discriminate.
    injection H as <-. unfold fetched. now destruct (fst r).
  - destruct (invoke_keeps_reserved_chars c s v s'
                (proj1 (reachable_cursor_in_history _ _ s Hs)) H) as [-> ->].
    exact IH.
Qed.

(** X2. In every reachable state whose count of reserved characters is a
    [size_t], [ReservedChar] returns, without reading past the array, and
    answers [true] exactly for the characters given at construction. *)
Theorem ReservedChar_spec s c :
  reachable GetNext s -> size_t_ok (num_reserved_chars_ s) ->
  exists answer,
    ReservedChar s c = Returned answer
    /\ (answer = true <-> In c (list_ascii_of_string (reserved_chars_ s))).
Proof.
  intros Hs [_ Hn]. pose proof (reachable_reserved_chars s Hs) as E.
  unfold ReservedChar. rewrite E, Nat2Z.id.
  pose proof (ReservedChar_loop_spec s c (reserved_chars_ s) EmptyString
                eq_refl) as L.
  cbn [String.length Z.of_nat append] in L. rewrite L by lia.
  eexists. split; [reflexivity|].
  rewrite existsb_exists. split.
  - intros [x [Hin Heq]]. apply Ascii.eqb_eq in Heq. now subst.
  - intros Hin. exists c. split; [exact Hin|apply Ascii.eqb_refl].
Qed.

(** *** The token at the cursor *)

(** X4. Where [HasNext()] is true, the [Peek] family and [line_number()]
    answer the fields of one and the same buffered token, and the text
    [Peek()] answers is the text a returning [Next()] returns. *)
Theorem Peek_announces_Next s :
  0 <= next_token_idx_ s -> HasNext s = true ->
  exists t,
    subscript (token_ s) (next_token_idx_ s) = Returned t
    /\ Peek s = Returned (Token.tok t)
    /\ PeekTokenType s = Returned (Token.type t)
    /\ PeekTokenStart s = Returned (Token.start t)
    /\ PeekTokenLineNumber s = Returned (Token.line_number t)
    /\ line_number s = Returned (Token.line_number t)
    /\ forall x s', Next GetNext s = Returned (x, s') -> Peek s = Returned x.
Proof.
  intros Hi Hnext.
  destruct (subscript_in_range (token_ s) (next_token_idx_ s)) as [t Ht].
  { apply HasNext_true in Hnext. lia. }
  exists t. split; [exact Ht|].
  unfold Peek, PeekTokenType, PeekTokenStart, PeekTokenLineNumber, line_number.
  rewrite Hnext, Ht. cbn [bind].
  repeat (split; [reflexivity|]).
  intros x s' HN.
  destruct (Next_returned _ _ s x s' Hi HN) as [_ [t' [_ [Ht' [-> _]]]]].
  congruence.
Qed.

(** X5. After a [Next()] that returned, [HasPrev()] is true and the [PeekPrev]
    family answers what the [Peek] family answered before the call;
    [PeekPrev()] is the text just returned. *)
Theorem PeekPrev_after_Next s x s' :
  representable s -> Next GetNext s = Returned (x, s') ->
  HasPrev s' = true
  /\ PeekPrev s' = Returned x
  /\ PeekPrev s' = Peek s
  /\ PeekPrevTokenStart s' = PeekTokenStart s
  /\ PeekPrevTokenType s' = PeekTokenType s.
Proof.
  intros [[Hi _] [_ Hn]] HN.
  destruct (Next_returned _ _ s x s' Hi HN)
    as [Hnext [t [s1 [Ht [-> [Hl ->]]]]]].
  destruct (looked_ahead_token _ _ s s1 Hl) as [more [Emore _]].
  destruct (subscript_returned _ _ _ Ht) as [[_ Hlt] _].
  rewrite size_t_add_exact by lia.
  assert (Hprev : HasPrev (set_next_token_idx s1 (next_token_idx_ s + 1))
                  = true).
  { apply HasPrev_true. simpl. lia. }
  unfold PeekPrev, PeekPrevTokenStart, PeekPrevTokenType,
    Peek, PeekTokenStart, PeekTokenType.
  rewrite Hprev, Hnext, Ht. simpl.
  rewrite size_t_sub_exact by lia.
  replace (next_token_idx_ s + 1 - 1) with (next_token_idx_ s) by lia.
  rewrite Emore, (subscript_app _ _ _ _ Ht). cbn [bind]. repeat split.
Qed.

End Header.

Section Cursor.

Variable istream : Type.
Variable GetNext :
  string -> list string -> ByteStream istream
  -> Outcome (option Token.t * ByteStream istream).
Implicit Types s : StreamTokenizer istream.

(** *** Rewinding *)

Lemma set_next_token_idx_same s i :
  next_token_idx_ s = i -> set_next_token_idx s i = s.
Proof. intros <-. now destruct s. Qed.

Lemma set_next_token_idx_twice s i j :
  set_next_token_idx (set_next_token_idx s i) j = set_next_token_idx s j.
Proof. reflexivity. Qed.

(** X6. [Rewind(0)] changes nothing, and for counts [n] and [m] whose
    sum is still a [size_t], [Rewind(m)] after [Rewind(n)] is
    [Rewind(n + m)], in either order. *)
Theorem Rewind_Rewind n m s :
  size_t_ok (next_token_idx_ s) -> 0 <= n -> 0 <= m ->
  size_t_ok (n + m) ->
  Rewind 0 s = s
  /\ size_t_add n m = n + m
  /\ Rewind m (Rewind n s) = Rewind (size_t_add n m) s
  /\ Rewind m (Rewind n s) = Rewind n (Rewind m s).
Proof.
  intros Hi Hn Hm Hsum.
  assert (Hafter : forall k, 0 <= k ->
            size_t_ok (next_token_idx_
                         (set_next_token_idx s
                            (Z.max 0 (next_token_idx_ s - k))))).
  { intros k Hk. unfold size_t_ok in *. simpl. lia. }
  rewrite (size_t_add_exact n m Hsum).
  rewrite (Rewind_exact _ 0 s Hi) by lia.
  rewrite (Rewind_exact _ n s Hi Hn), (Rewind_exact _ m s Hi Hm).
  rewrite (Rewind_exact _ (n + m) s Hi) by lia.
  rewrite !Rewind_exact by (auto; lia).
  rewrite !set_next_token_idx_twice.
  cbn [next_token_idx_ set_next_token_idx].
  destruct Hi as [H0 _].
  split; [apply set_next_token_idx_same; lia|].
  split; [reflexivity|].
  split; f_equal; lia.
Qed.

(** X7. [Rewind(n)] by at least as many tokens as the cursor has passed is
    [Rewind()]. *)
Theorem Rewind_beyond_the_start n s :
  size_t_ok (next_token_idx_ s) -> next_token_idx_ s <= n ->
  Rewind n s = Rewind0 s.
Proof.
  intros Hi Hn. rewrite (Rewind_exact _ n s Hi) by (destruct Hi; lia).
  unfold Rewind0. f_equal. lia.
Qed.

(** X8. With no token in the history, [Rewind()], [Rewind(n)] and
    [Putback()] are no-ops. *)
Theorem rewinding_an_empty_history n s :
  cursor_in_history s -> token_ s = [] -> 0 <= n ->
  Rewind0 s = s /\ Rewind n s = s /\ Putback s = s.
Proof.
  intros [H0 H1] E Hn. rewrite E in H1. unfold size in H1. simpl in H1.
  assert (Hz : next_token_idx_ s = 0) by lia.
  assert (Hi : size_t_ok (next_token_idx_ s))
    by (rewrite Hz; unfold size_t_ok, size_t_modulus; lia).
  unfold Putback, Rewind0. rewrite !(Rewind_exact _ _ s Hi) by lia.
  rewrite Hz.
  repeat split; apply set_next_token_idx_same; rewrite Hz; lia.
Qed.

(** X9. Where [HasPrev()] is true, [Putback()] makes the previous token the
    next one: [HasNext()] becomes true and the [Peek] family answers what
    the [PeekPrev] family answered. *)
Theorem Putback_turns_previous_into_next s :
  representable s -> cursor_in_history s -> HasPrev s = true ->
  HasNext (Putback s) = true
  /\ Peek (Putback s) = PeekPrev s
  /\ PeekTokenType (Putback s) = PeekPrevTokenType s
  /\ PeekTokenStart (Putback s) = PeekPrevTokenStart s.
Proof.
  intros [Hi [_ Hn]] [_ Hc] Hprev. pose proof Hprev as Hp.
  apply HasPrev_true in Hp.
  assert (Hnext : HasNext (Putback s) = true).
  { unfold Putback. rewrite (Rewind_exact _ 1 s Hi) by lia.
    apply HasNext_true. simpl. lia. }
  split; [exact Hnext|].
  unfold Peek, PeekTokenType, PeekTokenStart,
    PeekPrev, PeekPrevTokenType, PeekPrevTokenStart.
  rewrite Hnext, Hprev. unfold Putback.
  rewrite (Rewind_exact _ 1 s Hi) by lia. simpl.
  rewrite size_t_sub_exact by lia.
  replace (Z.max 0 (next_token_idx_ s - 1)) with (next_token_idx_ s - 1)
    by lia.
  repeat split.
Qed.

(** *** [Next] and [Putback] *)

Lemma Next_then_Putback s x s' :
  representable s -> Next GetNext s = Returned (x, s') ->
  exists s1 t,
    looked_ahead GetNext s s1
    /\ next_token_idx_ s1 = next_token_idx_ s
    /\ next_token_idx_ s < size (token_ s)
    /\ subscript (token_ s1) (next_token_idx_ s) = Returned t
    /\ x = Token.tok t
    /\ s' = set_next_token_idx s1 (next_token_idx_ s + 1)
    /\ Putback s' = s1.
Proof.
  intros [[Hi Hi'] [_ Hn]] HN.
  destruct (Next_returned _ _ s x s' Hi HN)
    as [Hnext [t [s1 [Ht [-> [Hl ->]]]]]].
  destruct (subscript_returned _ _ _ Ht) as [[_ Hlt] _].
  destruct (looked_ahead_token _ _ s s1 Hl) as [more [Emore _]].
  assert (Hc : next_token_idx_ s1 = next_token_idx_ s).
  { destruct Hl as [[_ ->]|[_ [r [_ ->]]]];
      [reflexivity|apply fetched_cursor]. }
  exists s1, t. rewrite size_t_add_exact by lia.
  do 3 (split; [assumption|]).
  split; [rewrite Emore; now apply subscript_app|].
  repeat (split; [reflexivity|]).
  unfold Putback.
  rewrite Rewind_exact by (unfold size_t_ok; simpl; lia).
  rewrite set_next_token_idx_twice.
  apply set_next_token_idx_same. simpl. lia.
Qed.

(** X10. [Putback()] after a [Next()] that returned yields the object as the
    look-ahead of that [Next()] left it: the object [Next()] started
    from, but for the token and the stream state of the one
    classification; the very same object where none was due. *)
Theorem Putback_undoes_Next s x s' :
  representable s -> Next GetNext s = Returned (x, s') ->
  looked_ahead GetNext s (Putback s')
  /\ (about_to_run_out s = false -> Putback s' = s).
Proof.
  intros Hrep HN.
  destruct (Next_then_Putback s x s' Hrep HN)
    as [s1 [t [Hl [_ [_ [_ [_ [_ ->]]]]]]]].
  split; [exact Hl|].
  intros Ha. destruct Hl as [[_ ->]|[Ha' _]]; [reflexivity|congruence].
Qed.

(** X11. Reading a token a second time: after [Next()] and [Putback()], where
    a further token is buffered or end of input is flagged, [Next()]
    returns the same text and the same object again, whatever the
    classifier. *)
Theorem Next_again_after_Putback s x s' :
  representable s -> Next GetNext s = Returned (x, s') ->
  HasNext s' = true \/ eof_reached_ (bytes_ s') = true ->
  forall classifier, Next classifier (Putback s') = Returned (x, s').
Proof.
  intros Hrep HN Hmore classifier.
  destruct (Next_then_Putback s x s' Hrep HN)
    as [s1 [t [Hl [Hc [Hlt [Ht [-> [Es' E]]]]]]]].
  destruct Hrep as [[Hi _] [_ Hn]].
  rewrite E, Es'.
  rewrite <- (set_next_token_idx_same s1 (next_token_idx_ s) Hc) at 1.
  assert (Hbound : next_token_idx_ s + 1 < size_t_modulus) by lia.
  destruct (reread _ s1 (next_token_idx_ s) t Hi Hbound Ht)
    as [_ [_ [_ [_ [_ Hread]]]]].
  apply Hread.
  rewrite Es' in Hmore. simpl in Hmore.
  destruct Hmore as [H|H]; [left|now right].
  apply HasNext_true in H. simpl in H. exact H.
Qed.

End Cursor.

Section Sequences.

Variable istream : Type.
Variable GetNext :
  string -> list string -> ByteStream istream
  -> Outcome (option Token.t * ByteStream istream).
Implicit Types s : StreamTokenizer istream.

(** *** Replaying the history *)

Lemma skipn_cons_nth_error {A : Type} (l : list A) (i : nat) (x : A) :
  nth_error l i = Some x -> skipn i l = x :: skipn (S i) l.
Proof.
  revert i. induction l as [|y l IH]; intros [|i] H; simpl in *;
    try discriminate.
  - now injection H as ->.
  - now apply IH.
Qed.

Lemma Next_times_buffered classifier s k :
  forall i,
    0 <= i -> size_t_ok (size (token_ s)) ->
    i + Z.of_nat k < size (token_ s)
    \/ (i + Z.of_nat k <= size (token_ s) /\ eof_reached_ (bytes_ s) = true) ->
    Next_times classifier k (set_next_token_idx s i)
    = Returned (map Token.tok (firstn k (skipn (Z.to_nat i) (token_ s))),
                set_next_token_idx s (i + Z.of_nat k)).
Proof.
  induction k as [|k IH]; intros i Hi Hn Hk.
  - simpl. now rewrite Z.add_0_r.
  - destruct (subscript_in_range (token_ s) i) as [t Ht]; [lia|].
    destruct Hn as [_ Hn].
    assert (Hbound : i + 1 < size_t_modulus) by lia.
    destruct (reread _ s i t Hi Hbound Ht) as [_ [_ [_ [_ [_ Hread]]]]].
    cbn [Next_times].
    rewrite Hread by (destruct Hk as [?|[_ ?]]; [left; lia|now right]).
    cbn [bind fst snd].
    rewrite (IH (i + 1));
      [|lia|split; [apply size_nonneg|lia]
       |destruct Hk as [?|[? ?]]; [left; lia|right; split; [lia|assumption]]].
    cbn [bind fst snd].
    destruct (subscript_returned _ _ _ Ht) as [_ E].
    rewrite (skipn_cons_nth_error _ _ _ E).
    replace (Z.to_nat (i + 1)) with (S (Z.to_nat i)) by lia.
    replace (i + 1 + Z.of_nat k) with (i + Z.of_nat (S k)) by lia.
    reflexivity.
Qed.

(** X12. After [Rewind()], [k] calls of [Next()] return the texts of the
    first [k] tokens of the history, in order, and leave the cursor at
    [k], whatever the classifier: as long as they stop before the last
    buffered token, or end of input is flagged, nothing is classified. *)
Theorem replay_after_Rewind0 k s :
  size_t_ok (size (token_ s)) ->
  Z.of_nat k < size (token_ s)
  \/ (Z.of_nat k <= size (token_ s) /\ eof_reached_ (bytes_ s) = true) ->
  forall classifier,
    Next_times classifier k (Rewind0 s)
    = Returned (map Token.tok (firstn k (token_ s)),
                set_next_token_idx s (Z.of_nat k)).
Proof.
  intros Hn Hk classifier. unfold Rewind0.
  rewrite (Next_times_buffered classifier s k 0); [reflexivity|lia|exact Hn|].
  simpl. exact Hk.
Qed.

(** *** What can go wrong *)

Lemma previous_in_range s :
  cursor_in_history s -> HasPrev s = true ->
  exists t,
    subscript (token_ s) (size_t_sub (next_token_idx_ s) 1) = Returned t.
Proof.
  intros [H0 H1] Hp%HasPrev_true.
  pose proof (size_t_sub_bounds (next_token_idx_ s) 1).
  apply subscript_in_range. lia.
Qed.

(** X13. With the cursor within the history, no call indexes the history out
    of range: every call but [Next] returns, and [Next] fails to return
    only for calling it without a next token or because its one
    classification fails to return. *)
Theorem calls_are_safe c s :
  cursor_in_history s ->
  match invoke GetNext c s with
  | Returned _ => True
  | Fatal message =>
      c = call_Next
      /\ (HasNext s = false
          \/ (about_to_run_out s = true
              /\ GetNext (reserved_chars_ s) (reserved_words_ s) (bytes_ s)
                 = Fatal message))
  | Undefined =>
      c = call_Next
      /\ about_to_run_out s = true
      /\ GetNext (reserved_chars_ s) (reserved_words_ s) (bytes_ s)
         = Undefined
  end.
Proof.
  intros Hc.
  assert (Hnext : HasNext s = true ->
            exists t, subscript (token_ s) (next_token_idx_ s) = Returned t).
  { intros H%HasNext_true. apply subscript_in_range.
    destruct Hc. lia. }
  assert (Hprev := previous_in_range s Hc).
  destruct c; cbn [invoke]; unfold const_member; try exact I;
    unfold tellg, line_number, PeekPrev, PeekPrevTokenStart,
      PeekPrevTokenType, PeekTokenStart, PeekTokenType,
      PeekTokenLineNumber, Peek;
    try (destruct (HasPrev s); [|exact I];
         destruct (Hprev eq_refl) as [t ->]; exact I);
    try (destruct (HasNext s); [|exact I];
         destruct (Hnext eq_refl) as [t ->]; exact I).
  destruct (HasNext s) eqn:E.
  - destruct (Next_with_next _ GetNext s (proj1 Hc) E) as [t [_ ->]].
    destruct (about_to_run_out s); [|exact I].
    destruct (GetNext _ _ _) as [r| |]; cbn [bind]; [exact I|..];
      repeat split; now right.
  - unfold Next. rewrite E. cbn. split; [reflexivity|now left].
Qed.

(** *** The look-ahead stays one token ahead *)

(** X14. Along every sequence of returning calls, the history holds at most
    one token more than [Next] has handed out. *)
Theorem lookahead_is_one_token s l :
  driven GetNext s l ->
  size (token_ s) <= Z.of_nat (List.length (consumed l)) + 1.
Proof.
  induction 1 as [input reserved_chars s H|c s l v s' Hs IH Harg H].
  - destruct (construct_returned _ _ _ _ _ H) as [_ [r [_ [_ ->]]]].
    destruct (fst r); unfold size; simpl; lia.
  - pose proof (reachable_cursor_in_history _ _ s
                  (driven_reachable _ _ s l Hs)) as Hc.
    destruct c; cbn [invoke] in H; cbn [note];
      try (apply const_member_returned in H; destruct H as [-> _];
           exact IH);
      try (injection H as _ <-; exact IH).
    destruct (Next GetNext s) as [[x s2]| |] eqn:HN; cbn in H;
      try discriminate.
    injection H as _ <-.
    destruct (Next_returned _ _ s x s2 (proj1 Hc) HN)
      as [_ [t [s1 [Ht [_ [Hl ->]]]]]].
    destruct (looked_ahead_token _ _ s s1 Hl) as [more [E Hmore]].
    rewrite Ht. simpl. rewrite E. unfold size in *.
    rewrite length_app. lia.
Qed.

(** *** After the end of input *)

Lemma invoke_after_eof c s v s' :
  0 <= next_token_idx_ s -> eof_reached_ (bytes_ s) = true ->
  invoke GetNext c s = Returned (v, s') ->
  token_ s' = token_ s /\ bytes_ s' = bytes_ s.
Proof.
  intros Hi Heof H.
  destruct c; cbn [invoke] in H;
    try (apply const_member_returned in H; destruct H as [-> _];
         now split);
    try (injection H as _ <-; now split).
  destruct (Next GetNext s) as [[x s2]| |] eqn:HN; cbn in H;
    try discriminate.
  injection H as _ <-.
  destruct (Next_returned _ _ s x s2 Hi HN) as [_ [t [s1 [_ [_ [Hl ->]]]]]].
  destruct Hl as [[_ ->]|[Ha _]]; [now split|].
  unfold about_to_run_out in Ha. rewrite Heof in Ha. discriminate.
Qed.

(** X15. Once end of input is flagged, no sequence of calls changes the
    history or the state of the byte stream: the classifier is not
    called again. *)
Theorem frozen_after_eof cs :
  forall s l s' l',
    cursor_in_history s -> eof_reached_ (bytes_ s) = true ->
    Forall argument_ok cs ->
    run GetNext cs s l = Returned (s', l') ->
    token_ s' = token_ s /\ bytes_ s' = bytes_ s.
Proof.
  induction cs as [|c cs IH]; intros s l s' l' Hc Heof Hargs H; simpl in H.
  - injection H as <- _. now split.
  - inversion Hargs as [|? ? Harg Hargs']; subst.
    destruct (invoke GetNext c s) as [[v s1]| |] eqn:Hinv; cbn in H;
      try discriminate.
    destruct (invoke_after_eof c s v s1 (proj1 Hc) Heof Hinv) as [Et Eb].
    destruct (invoke_keeps_history _ _ c s v s1 Harg Hc Hinv)
      as [_ [_ Hc1]].
    assert (Heof1 : eof_reached_ (bytes_ s1) = true) by now rewrite Eb.
    destruct (IH s1 _ s' l' Hc1 Heof1 Hargs' H) as [Et' Eb'].
    split; congruence.
Qed.

(** *** The history is permanent *)

(** X16. Along every sequence of returning calls the history only grows at
    its end: a token, once buffered, stays at its index for good. *)
Theorem history_is_permanent cs :
  forall s l s' l',
    cursor_in_history s -> Forall argument_ok cs ->
    run GetNext cs s l = Returned (s', l') ->
    (exists more, token_ s' = token_ s ++ more)
    /\ forall i t,
         subscript (token_ s) i = Returned t ->
         subscript (token_ s') i = Returned t.
Proof.
  assert (Hgrow : forall calls s l s' l',
            cursor_in_history s -> Forall argument_ok calls ->
            run GetNext calls s l = Returned (s', l') ->
            exists more, token_ s' = token_ s ++ more).
  { intros calls.
    induction calls as [|c calls IH]; intros s l s' l' Hc Hargs H;
      simpl in H.
    - injection H as <- _. exists []. now rewrite app_nil_r.
    - inversion Hargs as [|? ? Harg Hargs']; subst.
      destruct (invoke GetNext c s) as [[v s1]| |] eqn:Hinv; cbn in H;
        try discriminate.
      destruct (invoke_keeps_history _ _ c s v s1 Harg Hc Hinv)
        as [[more1 E1] [_ Hc1]].
      destruct (IH s1 _ s' l' Hc1 Hargs' H) as [more2 E2].
      exists (more1 ++ more2). now rewrite E2, E1, app_assoc. }
  intros s l s' l' Hc Hargs H.
  destruct (Hgrow cs s l s' l' Hc Hargs H) as [more E].
  split; [now exists more|].
  intros i t Ht. rewrite E. now apply subscript_app.
Qed.

(** *** Replacing the reserved words *)

(** X17. [set_reserved_words] commutes with every call but [Next] and itself:
    the queries answer as before and the rewinds move the cursor as
    before, so no buffered token is classified anew. *)
Theorem set_reserved_words_keeps_answers words c s :
  c <> call_Next -> (forall w, c <> call_set_reserved_words w) ->
  invoke GetNext c (set_reserved_words words s)
  = r <- invoke GetNext c s ;;
    Returned (fst r, set_reserved_words words (snd r)).
Proof.
  intros Hnext Hset.
  destruct c; try congruence; try (now destruct (Hset reserved_words));
    cbn [invoke]; unfold const_member; try reflexivity;
    unfold tellg, line_number, PeekPrev, PeekPrevTokenStart,
      PeekPrevTokenType, PeekTokenStart, PeekTokenType,
      PeekTokenLineNumber, Peek, HasPrev, HasNext, str;
    cbn [set_reserved_words token_ next_token_idx_ bytes_];
    repeat match goal with
           | |- context [if ?b then _ else _] => destruct b
           | |- context [subscript ?v ?i] => destruct (subscript v i)
           end; reflexivity.
Qed.

End Sequences.

(** ** The further properties at work on the sample classifier *)

Lemma Words_sample_reachable : reachable Words.GetNext Words.sample.
Proof.
  apply (reachable_construct Words.GetNext "ab cd"%string
           DEFAULT_RESERVED_CHARS).
  reflexivity.
Qed.

Lemma Words_sample_next :
  Next Words.GetNext Words.sample = Returned ("ab"%string, Words.sample_next).
Proof. reflexivity. Qed.

Lemma ReservedChar_spec_witness :
  reachable Words.GetNext Words.sample /\
  size_t_ok (num_reserved_chars_ Words.sample) /\
  exists answer,
    ReservedChar Words.sample ";"%char = Returned answer
    /\ (answer = true
        <-> In ";"%char (list_ascii_of_string (reserved_chars_ Words.sample))).
Proof.
  assert (Hn : size_t_ok (num_reserved_chars_ Words.sample))
    by closed_bounds.
  split; [exact Words_sample_reachable|]. split; [exact Hn|].
  exact (ReservedChar_spec _ Words.GetNext Words.sample ";"%char
           Words_sample_reachable Hn).
Defined.

Lemma Peek_announces_Next_witness :
  0 <= next_token_idx_ Words.sample /\ HasNext Words.sample = true /\
  exists t,
    subscript (token_ Words.sample) (next_token_idx_ Words.sample) = Returned t
    /\ Peek Words.sample = Returned (Token.tok t)
    /\ PeekTokenType Words.sample = Returned (Token.type t)
    /\ PeekTokenStart Words.sample = Returned (Token.start t)
    /\ PeekTokenLineNumber Words.sample = Returned (Token.line_number t)
    /\ line_number Words.sample = Returned (Token.line_number t)
    /\ forall x s',
         Next Words.GetNext Words.sample = Returned (x, s') ->
         Peek Words.sample = Returned x.
Proof.
  assert (Hi : 0 <= next_token_idx_ Words.sample) by closed_bounds.
  split; [exact Hi|]. split; [reflexivity|].
  exact (Peek_announces_Next _ Words.GetNext Words.sample Hi eq_refl).
Defined.

Lemma PeekPrev_after_Next_witness :
  representable Words.sample /\
  Next Words.GetNext Words.sample = Returned ("ab"%string, Words.sample_next) /\
  (HasPrev Words.sample_next = true
   /\ PeekPrev Words.sample_next = Returned "ab"%string
   /\ PeekPrev Words.sample_next = Peek Words.sample
   /\ PeekPrevTokenStart Words.sample_next = PeekTokenStart Words.sample
   /\ PeekPrevTokenType Words.sample_next = PeekTokenType Words.sample).
Proof.
  split; [exact Words_sample_representable|].
  split; [exact Words_sample_next|].
  exact (PeekPrev_after_Next _ Words.GetNext Words.sample "ab"%string
           Words.sample_next Words_sample_representable Words_sample_next).
Defined.

Lemma Rewind_Rewind_witness :
  size_t_ok (next_token_idx_ Words.sample_end) /\ 0 <= 1 /\ 0 <= 3 /\
  size_t_ok (1 + 3) /\
  (Rewind 0 Words.sample_end = Words.sample_end
   /\ size_t_add 1 3 = 1 + 3
   /\ Rewind 3 (Rewind 1 Words.sample_end)
      = Rewind (size_t_add 1 3) Words.sample_end
   /\ Rewind 3 (Rewind 1 Words.sample_end)
      = Rewind 1 (Rewind 3 Words.sample_end)).
Proof.
  assert (Hi : size_t_ok (next_token_idx_ Words.sample_end))
    by closed_bounds.
  assert (Hsum : size_t_ok (1 + 3)) by closed_bounds.
  split; [exact Hi|]. split; [lia|]. split; [lia|]. split; [exact Hsum|].
  apply (Rewind_Rewind _ 1 3 Words.sample_end Hi); [lia|lia|exact Hsum].
Defined.

Lemma Rewind_beyond_the_start_witness :
  size_t_ok (next_token_idx_ Words.sample_end) /\
  next_token_idx_ Words.sample_end <= 5 /\
  Rewind 5 Words.sample_end = Rewind0 Words.sample_end.
Proof.
  assert (Hi : size_t_ok (next_token_idx_ Words.sample_end))
    by closed_bounds.
  assert (Hn : next_token_idx_ Words.sample_end <= 5) by closed_bounds.
  split; [exact Hi|]. split; [exact Hn|].
  exact (Rewind_beyond_the_start _ 5 Words.sample_end Hi Hn).
Defined.

Lemma rewinding_an_empty_history_witness :
  cursor_in_history Words.sample_empty /\ token_ Words.sample_empty = [] /\
  0 <= 2 /\
  (Rewind0 Words.sample_empty = Words.sample_empty
   /\ Rewind 2 Words.sample_empty = Words.sample_empty
   /\ Putback Words.sample_empty = Words.sample_empty).
Proof.
  assert (Hc : cursor_in_history Words.sample_empty) by closed_bounds.
  split; [exact Hc|]. split; [reflexivity|]. split; [lia|].
  apply (rewinding_an_empty_history _ 2 Words.sample_empty Hc eq_refl). lia.
Defined.

Lemma Putback_turns_previous_into_next_witness :
  representable Words.sample_end /\ cursor_in_history Words.sample_end /\
  HasPrev Words.sample_end = true /\
  (HasNext (Putback Words.sample_end) = true
   /\ Peek (Putback Words.sample_end) = PeekPrev Words.sample_end
   /\ PeekTokenType (Putback Words.sample_end)
      = PeekPrevTokenType Words.sample_end
   /\ PeekTokenStart (Putback Words.sample_end)
      = PeekPrevTokenStart Words.sample_end).
Proof.
  assert (Hrep : representable Words.sample_end) by closed_bounds.
  assert (Hc : cursor_in_history Words.sample_end) by closed_bounds.
  split; [exact Hrep|]. split; [exact Hc|]. split; [reflexivity|].
  exact (Putback_turns_previous_into_next _ Words.sample_end Hrep Hc eq_refl).
Defined.

Lemma Putback_undoes_Next_witness :
  representable Words.sample /\
  Next Words.GetNext Words.sample = Returned ("ab"%string, Words.sample_next) /\
  (looked_ahead Words.GetNext Words.sample (Putback Words.sample_next)
   /\ (about_to_run_out Words.sample = false ->
       Putback Words.sample_next = Words.sample)).
Proof.
  split; [exact Words_sample_representable|].
  split; [exact Words_sample_next|].
  exact (Putback_undoes_Next _ Words.GetNext Words.sample "ab"%string
           Words.sample_next Words_sample_representable Words_sample_next).
Defined.

Lemma Next_again_after_Putback_witness :
  representable Words.sample /\
  Next Words.GetNext Words.sample = Returned ("ab"%string, Words.sample_next) /\
  (HasNext Words.sample_next = true
   \/ eof_reached_ (bytes_ Words.sample_next) = true) /\
  forall classifier,
    Next classifier (Putback Words.sample_next)
    = Returned ("ab"%string, Words.sample_next).
Proof.
  assert (Hmore : HasNext Words.sample_next = true
                  \/ eof_reached_ (bytes_ Words.sample_next) = true)
    by (left; reflexivity).
  split; [exact Words_sample_representable|].
  split; [exact Words_sample_next|]. split; [exact Hmore|].
  exact (Next_again_after_Putback _ Words.GetNext Words.sample "ab"%string
           Words.sample_next Words_sample_representable Words_sample_next
           Hmore).
Defined.

Lemma replay_after_Rewind0_witness :
  size_t_ok (size (token_ Words.sample_end)) /\
  (Z.of_nat 2 < size (token_ Words.sample_end)
   \/ (Z.of_nat 2 <= size (token_ Words.sample_end)
       /\ eof_reached_ (bytes_ Words.sample_end) = true)) /\
  forall classifier,
    Next_times classifier 2 (Rewind0 Words.sample_end)
    = Returned (map Token.tok (firstn 2 (token_ Words.sample_end)),
                set_next_token_idx Words.sample_end (Z.of_nat 2)).
Proof.
  assert (Hn : size_t_ok (size (token_ Words.sample_end)))
    by closed_bounds.
  assert (Hk : Z.of_nat 2 < size (token_ Words.sample_end)
               \/ (Z.of_nat 2 <= size (token_ Words.sample_end)
                   /\ eof_reached_ (bytes_ Words.sample_end) = true)).
  { right. split; [|reflexivity]. vm_compute. intro. discriminate. }
  split; [exact Hn|]. split; [exact Hk|].
  exact (replay_after_Rewind0 _ 2 Words.sample_end Hn Hk).
Defined.

Lemma calls_are_safe_witness :
  cursor_in_history Words.sample_empty /\
  match invoke Words.GetNext call_Next Words.sample_empty with
  | Returned _ => True
  | Fatal message =>
      call_Next = call_Next
      /\ (HasNext Words.sample_empty = false
          \/ (about_to_run_out Words.sample_empty = true
              /\ Words.GetNext (reserved_chars_ Words.sample_empty)
                   (reserved_words_ Words.sample_empty)
                   (bytes_ Words.sample_empty)
                 = Fatal message))
  | Undefined =>
      call_Next = call_Next
      /\ about_to_run_out Words.sample_empty = true
      /\ Words.GetNext (reserved_chars_ Words.sample_empty)
           (reserved_words_ Words.sample_empty) (bytes_ Words.sample_empty)
         = Undefined
  end.
Proof.
  assert (Hc : cursor_in_history Words.sample_empty) by closed_bounds.
  split; [exact Hc|].
  exact (calls_are_safe _ Words.GetNext call_Next Words.sample_empty Hc).
Defined.

Lemma lookahead_is_one_token_witness :
  driven Words.GetNext Words.sample_end
         (Words.ledger_after "ab cd" [call_Next; call_Next]) /\
  size (token_ Words.sample_end)
  <= Z.of_nat
       (List.length
          (consumed (Words.ledger_after "ab cd" [call_Next; call_Next]))) + 1.
Proof.
  split; [exact Words_sample_end_driven|].
  exact (lookahead_is_one_token _ Words.GetNext Words.sample_end _
           Words_sample_end_driven).
Defined.

Lemma Words_sample_replayed :
  run Words.GetNext [call_Rewind0; call_Next; call_Next] Words.sample_end
      {| consumed := []; outstanding := [] |}
  = Returned (fst Words.sample_replayed, snd Words.sample_replayed).
Proof. reflexivity. Qed.

Lemma frozen_after_eof_witness :
  cursor_in_history Words.sample_end /\
  eof_reached_ (bytes_ Words.sample_end) = true /\
  Forall argument_ok [call_Rewind0; call_Next; call_Next] /\
  run Words.GetNext [call_Rewind0; call_Next; call_Next] Words.sample_end
      {| consumed := []; outstanding := [] |}
  = Returned (fst Words.sample_replayed, snd Words.sample_replayed) /\
  (token_ (fst Words.sample_replayed) = token_ Words.sample_end
   /\ bytes_ (fst Words.sample_replayed) = bytes_ Words.sample_end).
Proof.
  assert (Hc : cursor_in_history Words.sample_end) by closed_bounds.
  assert (Hargs : Forall argument_ok [call_Rewind0; call_Next; call_Next])
    by (repeat constructor).
  split; [exact Hc|]. split; [reflexivity|]. split; [exact Hargs|].
  split; [exact Words_sample_replayed|].
  exact (frozen_after_eof _ Words.GetNext _ Words.sample_end _ _ _
           Hc eq_refl Hargs Words_sample_replayed).
Defined.

Lemma history_is_permanent_witness :
  cursor_in_history Words.sample_end /\
  Forall argument_ok [call_Rewind0; call_Next; call_Next] /\
  run Words.GetNext [call_Rewind0; call_Next; call_Next] Words.sample_end
      {| consumed := []; outstanding := [] |}
  = Returned (fst Words.sample_replayed, snd Words.sample_replayed) /\
  ((exists more,
      token_ (fst Words.sample_replayed) = token_ Words.sample_end ++ more)
   /\ forall i t,
        subscript (token_ Words.sample_end) i = Returned t ->
        subscript (token_ (fst Words.sample_replayed)) i = Returned t).
Proof.
  assert (Hc : cursor_in_history Words.sample_end) by closed_bounds.
  assert (Hargs : Forall argument_ok [call_Rewind0; call_Next; call_Next])
    by (repeat constructor).
  split; [exact Hc|]. split; [exact Hargs|].
  split; [exact Words_sample_replayed|].
  exact (history_is_permanent _ Words.GetNext _ Words.sample_end _ _ _
           Hc Hargs Words_sample_replayed).
Defined.

Lemma set_reserved_words_keeps_answers_witness :
  call_PeekTokenType <> call_Next /\
  (forall w, call_PeekTokenType <> call_set_reserved_words w) /\
  invoke Words.GetNext call_PeekTokenType
         (set_reserved_words ["ab"%string] Words.sample)
  = r <- invoke Words.GetNext call_PeekTokenType Words.sample ;;
    Returned (fst r, set_reserved_words ["ab"%string] (snd r)).
Proof.
  assert (H1 : call_PeekTokenType <> call_Next) by discriminate.
  assert (H2 : forall w, call_PeekTokenType <> call_set_reserved_words w)
    by discriminate.
  split; [exact H1|]. split; [exact H2|].
  exact (set_reserved_words_keeps_answers _ Words.GetNext ["ab"%string]
           call_PeekTokenType Words.sample H1 H2).
Defined.
